(** * The realtime audio bridge and the word store of the vocabulary client

    A shallow embedding of the parts of the client that carry its
    engineering content:

    - the audio utilities of the live API ([base64ToUint8Array],
      [arrayBufferToBase64], [floatTo16BitPCM]) and the call logic of the
      [Community] component ([startCall], [startAudioPipeline], the
      [onaudioprocess] handler, [playAudioChunk], [endCall], [toggleMic]
      and the four session callbacks), both in components/WordCard.tsx;
    - [StorageService.getSavedWords] and [StorageService.saveWord] of
      services/storage.ts.

    Conventions.

    - A JavaScript string is the list of its UTF-16 code units ([list N]).
    - A [Uint8Array] / [ArrayBuffer] is a [list byte].
    - An audio sample is a finite number, modelled by a rational.  Every
      finite [Float32] value is a dyadic rational with a 24-bit
      significand; its products with [0x8000] and [0x7FFF] and the
      quotient of a 16-bit integer by [32768] are exactly representable
      in a double, so on finite samples the codec computes exactly what
      the rational model computes.
    - Clock times and durations are rationals as well; the rounding of
      double-precision sums is not modelled.
    - Every function of the component returns the new component state
      together with the list of platform calls it made, in the order
      they are made: a call made inside a callback handed to the
      session promise comes after the synchronous calls of the function
      that handed it over.

    The later modules cover the rest of the word store ([removeWord],
    [updateWord], the daily task), the list, daily, news and lookup
    handlers of App.tsx, the voice selection of the speech output and
    the conversation of the tutor.
*)

From Stdlib Require Import Strings.String Strings.Ascii Strings.Byte DecimalString.
From Stdlib Require Import NArith ZArith QArith Qabs Lia Lqa Bool.
From Stdlib Require Import List Sorting.Sorted Sorting.Permutation.
Import ListNotations.

(* ================================================================= *)
(** * Part I: the embedding *)
(* ================================================================= *)

(** ** JavaScript values shared by the modules *)

Module JS.

(** A string, as the sequence of its UTF-16 code units. *)
Definition jsstring := list N.

(** The code units of an ASCII literal of the source. *)
Definition lit (s : string) : jsstring :=
  map N_of_ascii (list_ascii_of_string s).

(** [String.fromCharCode(b)] for an element [b] of a [Uint8Array]. *)
Definition fromCharCode (b : byte) : N := Byte.to_N b.

(** Storing a number into a [Uint8Array] slot keeps it modulo 256. *)
Definition toUint8 (n : N) : byte :=
  match Byte.of_N (n mod 256) with
  | Some b => b
  | None => x00
  end.

(** [Math.max] and [Math.min] on finite numbers. *)
Definition Math_max (a b : Q) : Q := if Qle_bool a b then b else a.
Definition Math_min (a b : Q) : Q := if Qle_bool a b then a else b.

(** [a < b] on finite numbers. *)
Definition ltb (a b : Q) : bool := negb (Qle_bool b a).

(** Truncation toward zero, the integer part taken by every
    conversion of a number to an integer type. *)
Definition truncate (q : Q) : Z := Z.quot (Qnum q) (Zpos (Qden q)).

(** [ToInt16]: what a store into an [Int16Array] slot keeps. *)
Definition ToInt16 (q : Q) : Z :=
  let m := ((truncate q) mod 65536)%Z in
  if (32768 <=? m)%Z then (m - 65536)%Z else m.

(** Decimal rendering of a non-negative integer inside a template
    literal. *)
Definition decimal (n : N) : jsstring :=
  lit (NilEmpty.string_of_uint (N.to_uint n)).

End JS.

(** ** The platform's base64 primitives

    [btoa] and [atob] are browser built-ins.  They are modelled from the
    HTML and Infra standards: [btoa] is the RFC 4648 encoding of a
    string whose code units are all below 256, [atob] is the
    "forgiving-base64 decode". *)

Module Base64.
Import JS.

(** The alphabet, by position. *)
Definition sextet_char (n : N) : N :=
  (if n <? 26 then n + 65          (* 'A'..'Z' *)
   else if n <? 52 then n + 71     (* 'a'..'z' *)
   else if n <? 62 then n - 4      (* '0'..'9' *)
   else if n =? 62 then 43         (* '+' *)
   else 47)%N.                     (* '/' *)

Definition char_sextet (c : N) : option N :=
  (if (65 <=? c) && (c <=? 90) then Some (c - 65)
   else if (97 <=? c) && (c <=? 122) then Some (c - 71)
   else if (48 <=? c) && (c <=? 57) then Some (c + 4)
   else if c =? 43 then Some 62
   else if c =? 47 then Some 63
   else None)%N.

(** Three bytes make four 6-bit groups; a final group of one or two
    bytes is completed with zero bits. *)
Fixpoint to_sextets (bs : list N) : list N :=
  match bs with
  | [] => []
  | [a] => [a / 4; (a mod 4) * 16]
  | [a; b] => [a / 4; (a mod 4) * 16 + b / 16; (b mod 16) * 4]
  | a :: b :: c :: rest =>
      a / 4 :: (a mod 4) * 16 + b / 16 :: (b mod 16) * 4 + c / 64
        :: c mod 64 :: to_sextets rest
  end%N.

(** ['='] characters completing the last group of four. *)
Fixpoint padding (bs : list N) : list N :=
  match bs with
  | [] => []
  | [_] => [61; 61]
  | [_; _] => [61]
  | _ :: _ :: _ :: rest => padding rest
  end%N.

Definition encode (bs : list N) : jsstring :=
  map sextet_char (to_sextets bs) ++ padding bs.

(** [btoa(data)]: throws [InvalidCharacterError] ([None]) when a code
    unit exceeds 255. *)
Definition btoa (data : jsstring) : option jsstring :=
  if forallb (fun c => c <=? 255)%N data then Some (encode data) else None.

Definition is_ascii_whitespace (c : N) : bool :=
  ((c =? 9) || (c =? 10) || (c =? 12) || (c =? 13) || (c =? 32))%N.

(** Step 2 of the forgiving decode: when the length is a multiple of
    four, one or two trailing ['='] are removed. *)
Definition strip_padding (data : list N) : list N :=
  if (length data mod 4 =? 0)%nat then
    if (last data 0 =? 61)%N then
      let data1 := removelast data in
      if (last data1 0 =? 61)%N then removelast data1 else data1
    else data
  else data.

(** Step 4: every remaining character must belong to the alphabet. *)
Fixpoint sextets (cs : list N) : option (list N) :=
  match cs with
  | [] => Some []
  | c :: rest =>
      match char_sextet c, sextets rest with
      | Some s, Some ss => Some (s :: ss)
      | _, _ => None
      end
  end.

(** Steps 5 and 6: the bit buffer is emptied every 24 bits; 12
    remaining bits give one byte, 18 give two. *)
Fixpoint from_sextets (ss : list N) : list N :=
  match ss with
  | s1 :: s2 :: s3 :: s4 :: rest =>
      s1 * 4 + s2 / 16 :: (s2 mod 16) * 16 + s3 / 4 :: (s3 mod 4) * 64 + s4
        :: from_sextets rest
  | [s1; s2; s3] => [s1 * 4 + s2 / 16; (s2 mod 16) * 16 + s3 / 4]
  | [s1; s2] => [s1 * 4 + s2 / 16]
  | _ => []
  end%N.

(** [atob(data)]: throws [InvalidCharacterError] ([None]) on a length
    of 1 modulo 4 or on a character outside the alphabet. *)
Definition atob (data : jsstring) : option jsstring :=
  let d := strip_padding (filter (fun c => negb (is_ascii_whitespace c)) data) in
  if (length d mod 4 =? 1)%nat then None
  else
    match sextets d with
    | Some ss => Some (from_sextets ss)
    | None => None
    end.

End Base64.

(** ** Audio utilities of the live API (components/Community) *)

Module Audio.
Import JS.

Definition INPUT_SAMPLE_RATE : N := 16000.
Definition OUTPUT_SAMPLE_RATE : N := 24000.

(** [base64ToUint8Array]: [atob], then one byte per character. *)
Definition base64ToUint8Array (base64 : jsstring) : option (list byte) :=
  match Base64.atob base64 with
  | Some binaryString => Some (map toUint8 binaryString)
  | None => None
  end.

(** [arrayBufferToBase64]: one character per byte, then [btoa]. *)
Definition arrayBufferToBase64 (buffer : list byte) : option jsstring :=
  Base64.btoa (map fromCharCode buffer).

(** The body of the loop of [floatTo16BitPCM]:
    [s = Math.max(-1, Math.min(1, input[i]))], then
    [output[i] = s < 0 ? s * 0x8000 : s * 0x7FFF] stored in an
    [Int16Array]. *)
Definition clamp (x : Q) : Q := Math_max (-1) (Math_min 1 x).

Definition scaled (s : Q) : Q :=
  if ltb s 0 then s * 32768 else s * 32767.

Definition pcmSample (x : Q) : Z := ToInt16 (scaled (clamp x)).

(** The two bytes of an [Int16Array] slot inside its buffer
    (two's complement, low byte first: typed arrays use the byte order
    of the platform, which is little-endian wherever the client runs). *)
Definition int16Bytes (v : Z) : list byte :=
  [toUint8 (Z.to_N (v mod 256)); toUint8 (Z.to_N ((v / 256) mod 256))].

(** [floatTo16BitPCM]: returns [output.buffer]. *)
Definition floatTo16BitPCM (input : list Q) : list byte :=
  flat_map (fun x => int16Bytes (pcmSample x)) input.

(** [view.getInt16(i * 2, true)]: little-endian signed read. *)
Definition getInt16 (lo hi : byte) : Z :=
  let u := (Z.of_N (Byte.to_N lo) + 256 * Z.of_N (Byte.to_N hi))%Z in
  if (32768 <=? u)%Z then (u - 65536)%Z else u.

(** The conversion loop of [playAudioChunk]:
    [channelData[i] = view.getInt16(i * 2, true) / 32768.0] for
    [i < audioBytes.length / 2].  On an odd length the last iteration
    reads past the end of the view and [getInt16] throws a
    [RangeError] ([None]). *)
Fixpoint decodePCM (audioBytes : list byte) : option (list Q) :=
  match audioBytes with
  | [] => Some []
  | [_] => None
  | lo :: hi :: rest =>
      match decodePCM rest with
      | Some channelData => Some ((getInt16 lo hi # 32768) :: channelData)
      | None => None
      end
  end.

(** What one sample becomes after encoding and decoding. *)
Definition heard (x : Q) : Q := pcmSample x # 32768.

(** The round trip of a frame through the codec: decoding the
    encoded frame succeeds and every sample is reproduced within
    [bound]. *)
Definition roundtrip_within (bound : Q -> Q -> Prop) (input : list Q) : Prop :=
  exists output,
    decodePCM (floatTo16BitPCM input) = Some output /\
    Forall2 bound input output.

End Audio.

(** ** The call logic of the [Community] component *)

Module Community.
Import JS Audio.

Record FriendProfile := {
  id : string;
  name : string;
  avatar : string;
  learning : list string;
  personaInstruction : string;
  voiceName : string
}.

Inductive status := idle | connecting | connected | error.

(** The value of [Math.sqrt] at a rational, kept symbolic. *)
Inductive level := Math_sqrt (radicand : Q).

(** The variables of a render that the functions created by that
    render close over and read later.  A function component re-creates
    [startCall], [startAudioPipeline], ... on every render; the session
    callbacks and the [onaudioprocess] handler are created once per
    call, inside the [startCall] of the render in which the call
    button was clicked, and keep that render's [isMicOn]. *)
Record closure := { seen_isMicOn : bool }.

(** Platform objects held in the refs. *)
Record AudioContext := { sampleRate : N }.
Record MediaStream := { getTracks : list nat }.
Record MediaStreamAudioSourceNode := { mediaStream : MediaStream }.
Record ScriptProcessorNode := {
  bufferSize : N;
  onaudioprocess_closure : closure
}.
(** What [ai.live.connect] was called with.  The call returns a
    promise of the session; [sessionPromiseRef] holds that promise, and
    the component reaches the session only inside callbacks it hands
    to [then].  The promise is taken to fulfil: the calls made in
    those callbacks ([sendRealtimeInput], [close]) are logged as calls
    on the session, made after the synchronous statements of the
    handler that handed the callback over; on a promise that is
    rejected none of them would be made. *)
Record Session := {
  systemInstruction : string;
  responseVoice : string;
  callbacks_closure : closure
}.

Record state := mkState {
  activeCall : option FriendProfile;
  isMicOn : bool;
  connectionStatus : status;
  volumeLevel : level;
  audioContextRef : option AudioContext;
  inputSourceRef : option MediaStreamAudioSourceNode;
  processorRef : option ScriptProcessorNode;
  streamRef : option MediaStream;
  nextStartTimeRef : Q;
  sessionPromiseRef : option Session
}.

(** The state of a freshly mounted component. *)
Definition initial : state :=
  mkState None true idle (Math_sqrt 0) None None None None 0 None.

Definition setActiveCall v st :=
  mkState v (isMicOn st) (connectionStatus st) (volumeLevel st)
    (audioContextRef st) (inputSourceRef st) (processorRef st)
    (streamRef st) (nextStartTimeRef st) (sessionPromiseRef st).
Definition setIsMicOn (f : bool -> bool) st :=
  mkState (activeCall st) (f (isMicOn st)) (connectionStatus st)
    (volumeLevel st) (audioContextRef st) (inputSourceRef st)
    (processorRef st) (streamRef st) (nextStartTimeRef st)
    (sessionPromiseRef st).
Definition setConnectionStatus v st :=
  mkState (activeCall st) (isMicOn st) v (volumeLevel st)
    (audioContextRef st) (inputSourceRef st) (processorRef st)
    (streamRef st) (nextStartTimeRef st) (sessionPromiseRef st).
Definition setVolumeLevel v st :=
  mkState (activeCall st) (isMicOn st) (connectionStatus st) v
    (audioContextRef st) (inputSourceRef st) (processorRef st)
    (streamRef st) (nextStartTimeRef st) (sessionPromiseRef st).
Definition set_audioContextRef v st :=
  mkState (activeCall st) (isMicOn st) (connectionStatus st)
    (volumeLevel st) v (inputSourceRef st) (processorRef st)
    (streamRef st) (nextStartTimeRef st) (sessionPromiseRef st).
Definition set_inputSourceRef v st :=
  mkState (activeCall st) (isMicOn st) (connectionStatus st)
    (volumeLevel st) (audioContextRef st) v (processorRef st)
    (streamRef st) (nextStartTimeRef st) (sessionPromiseRef st).
Definition set_processorRef v st :=
  mkState (activeCall st) (isMicOn st) (connectionStatus st)
    (volumeLevel st) (audioContextRef st) (inputSourceRef st) v
    (streamRef st) (nextStartTimeRef st) (sessionPromiseRef st).
Definition set_streamRef v st :=
  mkState (activeCall st) (isMicOn st) (connectionStatus st)
    (volumeLevel st) (audioContextRef st) (inputSourceRef st)
    (processorRef st) v (nextStartTimeRef st) (sessionPromiseRef st).
Definition set_nextStartTimeRef v st :=
  mkState (activeCall st) (isMicOn st) (connectionStatus st)
    (volumeLevel st) (audioContextRef st) (inputSourceRef st)
    (processorRef st) (streamRef st) v (sessionPromiseRef st).
Definition set_sessionPromiseRef v st :=
  mkState (activeCall st) (isMicOn st) (connectionStatus st)
    (volumeLevel st) (audioContextRef st) (inputSourceRef st)
    (processorRef st) (streamRef st) (nextStartTimeRef st) v.

(** The argument of [session.sendRealtimeInput]. *)
Record media := { mimeType : jsstring; data : jsstring }.

Record AudioBuffer := {
  numberOfFrames : nat;
  bufferRate : N;
  channelData : list Q
}.

(** [audioBuffer.duration], in seconds: frames over rate. *)
Definition duration (b : AudioBuffer) : Q :=
  inject_Z (Z.of_nat (numberOfFrames b)) / inject_Z (Z.of_N (bufferRate b)).

(** Calls made on platform objects, the observable behaviour. *)
Inductive call :=
| NewAudioContext (ctx : AudioContext)
| GetUserMedia (rate : N)
| LiveConnect (s : Session)
| CreateMediaStreamSource (stream : MediaStream)
| CreateScriptProcessor (size inputs outputs : N)
| ConnectSourceToProcessor
| ConnectProcessorToDestination
| SendRealtimeInput (s : Session) (m : media)
| SourceStart (startTime : Q) (buffer : AudioBuffer)
| SessionClose (s : Session)
| TrackStop (track : nat)
| ProcessorDisconnect (p : ScriptProcessorNode)
| InputSourceDisconnect (n : MediaStreamAudioSourceNode)
| AudioContextClose (ctx : AudioContext).

(** *** Statements as state transformers that log their calls *)

Definition action := state -> state * list call.

Definition skip : action := fun st => (st, []).
Definition assign (f : state -> state) : action := fun st => (f st, []).
Definition emit (cs : list call) : action := fun st => (st, cs).
Definition seq (a b : action) : action :=
  fun st =>
    let (st1, c1) := a st in
    let (st2, c2) := b st1 in
    (st2, c1 ++ c2).
(** [if (ref.current) { body }] *)
Definition whenSet {A : Type} (ref : state -> option A) (body : A -> action)
  : action :=
  fun st => match ref st with
            | Some v => body v st
            | None => (st, [])
            end.

Declare Scope action_scope.
Delimit Scope action_scope with action.
Bind Scope action_scope with action.
Notation "a ;; b" := (seq a b)
  (at level 61, right associativity) : action_scope.
Local Open Scope action_scope.

(** *** [startCall]

    The function is asynchronous and suspends once, at
    [await navigator.mediaDevices.getUserMedia].  [startCall] is the
    part run at the click, [startCall_resume] the part run when the
    microphone is granted, [startCall_catch] the [catch] block.
    [constructed] tells whether the [AudioContext] constructor
    returned ([false]: it threw). *)
Definition startCall (profile : FriendProfile) (constructed : bool)
    (currentTime : Q) : action :=
  assign (setActiveCall (Some profile)) ;;
  assign (setConnectionStatus connecting) ;;
  if constructed then
    let ctx := {| sampleRate := OUTPUT_SAMPLE_RATE |} in
    emit [NewAudioContext ctx] ;;
    assign (set_audioContextRef (Some ctx)) ;;
    assign (set_nextStartTimeRef currentTime) ;;
    emit [GetUserMedia INPUT_SAMPLE_RATE]
  else
    assign (setConnectionStatus error).

Definition startCall_resume (c : closure) (profile : FriendProfile)
    (stream : MediaStream) : action :=
  assign (set_streamRef (Some stream)) ;;
  let session := {| systemInstruction := personaInstruction profile;
                    responseVoice := voiceName profile;
                    callbacks_closure := c |} in
  emit [LiveConnect session] ;;
  assign (set_sessionPromiseRef (Some session)).

Definition startCall_catch : action :=
  assign (setConnectionStatus error).

(** *** The capture side *)

(** [sum += inputData[i] * inputData[i]] over the frame. *)
Definition sumSquares (inputData : list Q) : Q :=
  fold_left (fun sum x => sum + x * x) inputData 0.

Definition frameLength (inputData : list Q) : Q :=
  inject_Z (Z.of_nat (length inputData)).

(** [Math.sqrt(sum / inputData.length)]; a frame holds [bufferSize]
    samples, so the length is not zero. *)
Definition rms (inputData : list Q) : level :=
  Math_sqrt (sumSquares inputData / frameLength inputData).

(** The template literal [`audio/pcm;rate=${INPUT_SAMPLE_RATE}`]. *)
Definition pcmMimeType : jsstring :=
  lit "audio/pcm;rate=" ++ decimal INPUT_SAMPLE_RATE.

(** The [onaudioprocess] handler installed by [startAudioPipeline].
    [c] is the closure it was created in; [isMicOn] is read there.
    [sessionPromiseRef.current?.then(session => session.sendRealtimeInput(..))]
    is logged as one [SendRealtimeInput]: the callbacks registered on
    one promise run in registration order. *)
Definition onaudioprocess (c : closure) (inputData : list Q) : action :=
  if negb (seen_isMicOn c) then skip
  else
    assign (setVolumeLevel (rms inputData)) ;;
    let pcm16 := floatTo16BitPCM inputData in
    match arrayBufferToBase64 pcm16 with
    | Some base64Data =>
        whenSet sessionPromiseRef (fun session =>
          emit [SendRealtimeInput session
                  {| mimeType := pcmMimeType; data := base64Data |}])
    | None => skip
    end.

Definition startAudioPipeline (c : closure) : action :=
  fun st =>
    match audioContextRef st, streamRef st, sessionPromiseRef st with
    | Some ctx, Some stream, Some _ =>
        (emit [CreateMediaStreamSource stream] ;;
         assign (set_inputSourceRef (Some {| mediaStream := stream |})) ;;
         emit [CreateScriptProcessor 4096 1 1] ;;
         assign (set_processorRef
                   (Some {| bufferSize := 4096;
                            onaudioprocess_closure := c |})) ;;
         emit [ConnectSourceToProcessor; ConnectProcessorToDestination]) st
    | _, _, _ => (st, [])
    end.

(** An [audioprocess] event reaches the handler of the node in
    [processorRef]; a disconnected node is not driven any more. *)
Definition audioprocess (inputData : list Q) : action :=
  whenSet processorRef (fun node =>
    onaudioprocess (onaudioprocess_closure node) inputData).

(** *** The playback side *)

(** [playAudioChunk].  Every exception leaves the refs as they were:
    [atob] on a malformed text, [createBuffer] on a length that
    converts to zero frames ([NotSupportedError]), [getInt16] past the
    end of an odd-length buffer. *)
Definition playAudioChunk (base64Audio : jsstring) (currentTime : Q)
  : action :=
  whenSet audioContextRef (fun ctx st =>
    match base64ToUint8Array base64Audio with
    | None => (st, [])
    | Some audioBytes =>
        let frames := (length audioBytes / 2)%nat in
        if (frames =? 0)%nat then (st, [])
        else
          match decodePCM audioBytes with
          | None => (st, [])
          | Some samples =>
              let audioBuffer := {| numberOfFrames := frames;
                                    bufferRate := OUTPUT_SAMPLE_RATE;
                                    channelData := samples |} in
              let startTime := Math_max currentTime (nextStartTimeRef st) in
              (emit [SourceStart startTime audioBuffer] ;;
               assign (set_nextStartTimeRef
                         (startTime + duration audioBuffer))) st
          end
    end).

(** *** Teardown and mute *)

(** [endCall].  None of the platform calls throws: [then] registers a
    callback, [stop] and [disconnect] always return, [close] returns a
    promise.  [sessionPromiseRef.current.then(s => s.close())] only
    hands the callback to the promise: [s.close()] is called when the
    promise runs it, which is after every synchronous statement of
    [endCall], so it is the last call of the log (and it is made at
    all because the promise is taken to fulfil, see [Session]). *)
Definition endCall : action :=
  fun st =>
  let queued :=
    match sessionPromiseRef st with
    | Some session => [SessionClose session]
    | None => []
    end in
  (whenSet sessionPromiseRef (fun _ =>
    assign (set_sessionPromiseRef None)) ;;
  whenSet streamRef (fun stream =>
    emit (map TrackStop (getTracks stream)) ;;
    assign (set_streamRef None)) ;;
  whenSet processorRef (fun node =>
    emit [ProcessorDisconnect node] ;;
    assign (set_processorRef None)) ;;
  whenSet inputSourceRef (fun node =>
    emit [InputSourceDisconnect node] ;;
    assign (set_inputSourceRef None)) ;;
  whenSet audioContextRef (fun ctx =>
    emit [AudioContextClose ctx] ;;
    assign (set_audioContextRef None)) ;;
  assign (setActiveCall None) ;;
  assign (setConnectionStatus idle) ;;
  emit queued) st.

Definition toggleMic : action := assign (setIsMicOn negb).

(** *** The callbacks given to [ai.live.connect] *)

Definition onopen (c : closure) : action :=
  assign (setConnectionStatus connected) ;;
  startAudioPipeline c.

(** [audioData] is the result of the optional chain
    [msg.serverContent?.modelTurn?.parts?.[0]?.inlineData?.data];
    the empty string is falsy. *)
Definition onmessage (audioData : option jsstring) (currentTime : Q)
  : action :=
  match audioData with
  | Some ((_ :: _) as base64Audio) =>
      whenSet audioContextRef (fun _ => playAudioChunk base64Audio currentTime)
  | _ => skip
  end.

Definition onclose : action := endCall.

Definition onerror : action := assign (setConnectionStatus error).

(** *** What the component renders *)

Inductive screen :=
| RoomList
| CallScreen (profile : FriendProfile) (statusLine : string).

Definition statusLine (s : status) : string :=
  match s with
  | connecting => "Connecting..."
  | connected => "Live Voice"
  | error => "Connection Failed"
  | idle => ""
  end.

Definition render (st : state) : screen :=
  match activeCall st with
  | Some profile => CallScreen profile (statusLine (connectionStatus st))
  | None => RoomList
  end.

(** *** Event sequences *)

Inductive event :=
| CallClicked (profile : FriendProfile) (constructed : bool) (currentTime : Q)
| MicGranted (c : closure) (profile : FriendProfile) (stream : MediaStream)
| MicDenied
| SessionOpened (c : closure)
| SessionMessage (audioData : option jsstring) (currentTime : Q)
| SessionClosed
| SessionErrored
| AudioProcess (inputData : list Q)
| HangUpClicked
| MicClicked.

Definition handle (e : event) : action :=
  match e with
  | CallClicked profile constructed currentTime =>
      startCall profile constructed currentTime
  | MicGranted c profile stream => startCall_resume c profile stream
  | MicDenied => startCall_catch
  | SessionOpened c => onopen c
  | SessionMessage audioData currentTime => onmessage audioData currentTime
  | SessionClosed => onclose
  | SessionErrored => onerror
  | AudioProcess inputData => audioprocess inputData
  | HangUpClicked => endCall
  | MicClicked => toggleMic
  end.

Fixpoint run (es : list event) : action :=
  match es with
  | [] => skip
  | e :: rest => handle e ;; run rest
  end.

(** The closure of the functions created by the render of [st]. *)
Definition closure_of (st : state) : closure :=
  {| seen_isMicOn := isMicOn st |}.

(** Every handle the component owns has been released. *)
Definition released (st : state) : Prop :=
  sessionPromiseRef st = None /\ streamRef st = None /\
  processorRef st = None /\ inputSourceRef st = None /\
  audioContextRef st = None.

(** No call: the state [endCall] leaves behind, which is also the
    state of a fresh component. *)
Definition noCall (st : state) : Prop :=
  activeCall st = None /\ connectionStatus st = idle /\ released st.

(** The calls of a full teardown of [st], step by step, in the
    order they are made; a step whose ref is [null] contributes
    nothing. *)
Definition teardownCalls (st : state) : list call :=
  match streamRef st with
  | Some stream => map TrackStop (getTracks stream) | None => [] end ++
  match processorRef st with
  | Some node => [ProcessorDisconnect node] | None => [] end ++
  match inputSourceRef st with
  | Some node => [InputSourceDisconnect node] | None => [] end ++
  match audioContextRef st with
  | Some ctx => [AudioContextClose ctx] | None => [] end ++
  match sessionPromiseRef st with
  | Some session => [SessionClose session] | None => [] end.



Definition isCallClicked (e : event) : bool :=
  match e with CallClicked _ _ _ => true | _ => false end.

(** The message sent for one captured frame. *)
Definition frameMessage (inputData : list Q) : media :=
  {| mimeType := lit "audio/pcm;rate=16000";
     data := Base64.encode (map fromCharCode (floatTo16BitPCM inputData)) |}.

(** *** Scenarios *)

Definition priya : FriendProfile :=
  {| id := "priya"; name := "Priya Sharma";
     avatar := "bg-pink-100 text-pink-600";
     learning := ["Petrichor"; "Serendipity"]%string;
     personaInstruction := "You are Priya Sharma";
     voiceName := "Kore" |}.

Definition microphone : MediaStream := {| getTracks := [0%nat] |}.

(** The call button was clicked and the microphone granted; the
    session has not opened yet. *)
Definition connectingCall : state :=
  fst (run [CallClicked priya true 0;
            MicGranted (closure_of initial) priya microphone] initial).

(** The session has opened: capture is running. *)
Definition liveCall : state :=
  fst (run [SessionOpened (closure_of initial)] connectingCall).

(** A second call, started after the microphone button was clicked
    during a first one: its closures were created with [isMicOn]
    false. *)
Definition afterMutedHangUp : state :=
  fst (run [MicClicked; HangUpClicked] liveCall).

Definition mutedCall : state :=
  fst (run [CallClicked priya true 10;
            MicGranted (closure_of afterMutedHangUp) priya microphone;
            SessionOpened (closure_of afterMutedHangUp)] afterMutedHangUp).

(** The microphone button is clicked again during that second call:
    the component shows a live call with the microphone on. *)
Definition unmutedSecondCall : state :=
  fst (run [MicClicked] mutedCall).

(** The call button was clicked and [getUserMedia] has not answered
    yet. *)
Definition awaitingMicrophone : state :=
  fst (run [CallClicked priya true 0] initial).

Definition silentFrame : list Q := repeat 0 (N.to_nat 4096).

(** A received chunk of 12000 silent samples (half a second at
    24000 Hz): 24000 zero bytes, 32000 ['A'] in base64. *)
Definition halfSecondChunk : jsstring := repeat 65%N (N.to_nat 32000).

(** Chunks handed to [playAudioChunk] one after the other, each with
    the reading of [ctx.currentTime] at its arrival. *)
Fixpoint playAll (arrivals : list (jsstring * Q)) : action :=
  match arrivals with
  | [] => skip
  | (base64Audio, currentTime) :: rest =>
      playAudioChunk base64Audio currentTime ;; playAll rest
  end.

(** The [source.start] calls of a log: start time and buffer. *)
Fixpoint sourceStarts (log : list call) : list (Q * AudioBuffer) :=
  match log with
  | [] => []
  | SourceStart startTime buffer :: rest =>
      (startTime, buffer) :: sourceStarts rest
  | _ :: rest => sourceStarts rest
  end.

Definition startsNoEarlier (a b : Q * AudioBuffer) : Prop :=
  fst a <= fst b.
Definition startsAfterEnd (a b : Q * AudioBuffer) : Prop :=
  fst a + duration (snd a) <= fst b.

(** The buffer [playAudioChunk] builds from a chunk, when it gets as
    far as building one. *)
Definition decodeChunk (base64Audio : jsstring) : option AudioBuffer :=
  match base64ToUint8Array base64Audio with
  | None => None
  | Some audioBytes =>
      let frames := (length audioBytes / 2)%nat in
      if (frames =? 0)%nat then None
      else
        match decodePCM audioBytes with
        | None => None
        | Some samples =>
            Some {| numberOfFrames := frames;
                    bufferRate := OUTPUT_SAMPLE_RATE;
                    channelData := samples |}
        end
  end.

(** The Playback Scheduler in the words of its contract, for
    comparison with [playAudioChunk]: a chunk that decodes starts at
    [max(currentClockTime, cursor)] and moves the cursor to
    [startTime + chunkDurationSeconds]; the result is the list of
    (start time, buffer) and the final cursor. *)
Fixpoint contractSchedule (cursor : Q)
    (chunks : list (option AudioBuffer * Q)) : list (Q * AudioBuffer) * Q :=
  match chunks with
  | [] => ([], cursor)
  | (None, _) :: rest => contractSchedule cursor rest
  | (Some buffer, currentClockTime) :: rest =>
      let startTime := Math_max currentClockTime cursor in
      let (starts, final) :=
        contractSchedule (startTime + duration buffer) rest in
      ((startTime, buffer) :: starts, final)
  end.

End Community.

(** ** Observations on event sequences of the call *)

Module CallObservations.
Import JS Audio Community.

(** Calls that set up or use the capture path. *)
Definition capturesAudio (c : call) : bool :=
  match c with
  | CreateMediaStreamSource _ | CreateScriptProcessor _ _ _
  | ConnectSourceToProcessor | ConnectProcessorToDestination
  | SendRealtimeInput _ _ => true
  | _ => false
  end.

Definition isMicGranted (e : event) : bool :=
  match e with MicGranted _ _ _ => true | _ => false end.

(** No microphone stream is held and no processor node exists. *)
Definition noStream (st : state) : Prop :=
  streamRef st = None /\ processorRef st = None.

(** The radicand of a level. *)
Definition squared (l : level) : Q :=
  match l with Math_sqrt q => q end.

(** The session [startCall_resume] connects for a profile. *)
Definition sessionFor (c : closure) (profile : FriendProfile) : Session :=
  {| systemInstruction := personaInstruction profile;
     responseVoice := voiceName profile;
     callbacks_closure := c |}.

(** A whole call that goes well: click, microphone granted, session
    opened, hang-up. *)
Definition wholeCall (c : closure) (profile : FriendProfile)
    (stream : MediaStream) (currentTime : Q) : list event :=
  [CallClicked profile true currentTime; MicGranted c profile stream;
   SessionOpened c; HangUpClicked].

End CallObservations.

(** ** The word store (services/storage) *)

Module Storage.

Inductive difficulty := Easy | Moderate | Advanced.

Record ExampleSentence := { type : difficulty; sentence : string }.

(** [WordData]; an optional field is [None] when absent. *)
Record WordData := {
  id : option string;
  word : string;
  partOfSpeech : string;
  hindiMeaning : string;
  ipa : string;
  simplePhonetics : string;
  morphology : option string;
  synonyms : option (list string);
  antonyms : option (list string);
  examples : list ExampleSentence;
  userCustomSentence : option string;
  dateAdded : option Z
}.

(** The [localStorage] item under [KEYS.MY_LIST], by what reading it
    gives: no item (or the empty string), a text [JSON.parse] rejects,
    or the text of a word list.  Writing a list with [JSON.stringify]
    and parsing it back gives the list; [setItem] is taken to succeed. *)
Inductive item :=
| Missing
| Malformed
| Stored (words : list WordData).

(** [getSavedWords]: [data ? JSON.parse(data) : []], and [[]] from
    the [catch] block. *)
Definition getSavedWords (myList : item) : list WordData :=
  match myList with
  | Stored words => words
  | Missing => []
  | Malformed => []
  end.

(** [{ ...word, id: crypto.randomUUID(), dateAdded: Date.now() }] *)
Definition stamped (w : WordData) (uuid : string) (now : Z) : WordData :=
  {| id := Some uuid;
     word := word w;
     partOfSpeech := partOfSpeech w;
     hindiMeaning := hindiMeaning w;
     ipa := ipa w;
     simplePhonetics := simplePhonetics w;
     morphology := morphology w;
     synonyms := synonyms w;
     antonyms := antonyms w;
     examples := examples w;
     userCustomSentence := userCustomSentence w;
     dateAdded := Some now |}.

Section SaveWord.

(** [String.prototype.toLowerCase], whatever it does to a string. *)
Variable toLowerCase : string -> string.

(** [saveWord]: [uuid] and [now] are what [crypto.randomUUID()] and
    [Date.now()] return.  The result is the returned boolean and the
    item afterwards. *)
Definition saveWord (w : WordData) (uuid : string) (now : Z)
    (myList : item) : bool * item :=
  let words := getSavedWords myList in
  if negb (existsb
             (fun w' => String.eqb (toLowerCase (word w'))
                                   (toLowerCase (word w)))
             words)
  then
    let newWord := stamped w uuid now in
    (true, Stored (newWord :: words))
  else (false, myList).

(** Some stored word has the candidate's string, up to case. *)
Definition known (w : WordData) (words : list WordData) : Prop :=
  exists w', In w' words /\ toLowerCase (word w') = toLowerCase (word w).

End SaveWord.

(** Lower-casing of the letters A to Z, for examples. *)
Definition lowerAscii (c : ascii) : ascii :=
  let n := nat_of_ascii c in
  if ((65 <=? n) && (n <=? 90))%nat then ascii_of_nat (n + 32) else c.

Fixpoint lowerLatin (s : string) : string :=
  match s with
  | EmptyString => EmptyString
  | String c rest => String (lowerAscii c) (lowerLatin rest)
  end.

Definition entry (text : string) : WordData :=
  {| id := None; word := text; partOfSpeech := "Noun"; hindiMeaning := "";
     ipa := ""; simplePhonetics := ""; morphology := None;
     synonyms := None; antonyms := None; examples := [];
     userCustomSentence := None; dateAdded := None |}.

End Storage.

(** ** The other operations of the word store *)

Module StorageOps.
Import Storage.

(** [a === b] on two optional ids: two absent ids are equal. *)
Definition sameId (a b : option string) : bool :=
  match a, b with
  | Some x, Some y => String.eqb x y
  | None, None => true
  | _, _ => false
  end.

(** [removeWord]: [words.filter(w => w.id !== wordId)], then [setItem]. *)
Definition removeWord (wordId : string) (myList : item) : item :=
  Stored (filter (fun w => negb (sameId (id w) (Some wordId)))
            (getSavedWords myList)).

(** [Array.prototype.findIndex]; [None] is the result [-1]. *)
Fixpoint findIndex {A : Type} (p : A -> bool) (l : list A) : option nat :=
  match l with
  | [] => None
  | x :: rest =>
      if p x then Some 0%nat
      else match findIndex p rest with
           | Some i => Some (S i)
           | None => None
           end
  end.

(** [l[i] = x] for an index inside the array. *)
Fixpoint setAt {A : Type} (i : nat) (x : A) (l : list A) : list A :=
  match l, i with
  | [], _ => []
  | _ :: rest, O => x :: rest
  | y :: rest, S j => y :: setAt j x rest
  end.

(** [updateWord]: the item is written only when an index was found. *)
Definition updateWord (updatedWord : WordData) (myList : item) : item :=
  let words := getSavedWords myList in
  match findIndex (fun w => sameId (id w) (id updatedWord)) words with
  | Some index => Stored (setAt index updatedWord words)
  | None => myList
  end.

Record DailyTask := { date : string; words : list WordData }.

(** The item under [KEYS.DAILY_TASK], by what reading it gives. *)
Inductive dailyItem :=
| NoTask
| BadTask
| StoredTask (task : DailyTask).

(** [getDailyTask]: [data ? JSON.parse(data) : null], [null] from the
    [catch] block. *)
Definition getDailyTask (daily : dailyItem) : option DailyTask :=
  match daily with
  | StoredTask task => Some task
  | NoTask => None
  | BadTask => None
  end.

Definition saveDailyTask (task : DailyTask) (daily : dailyItem) : dailyItem :=
  StoredTask task.

(** The ids of a word list, position by position. *)
Definition ids (ws : list WordData) : list (option string) := map id ws.

(** Every word carries an id and no id occurs twice. *)
Definition keyed (ws : list WordData) : Prop :=
  Forall (fun w => id w <> None) ws /\ NoDup (ids ws).

Section Sequences.

Variable toLowerCase : string -> string.

(** The word strings of a list, lower-cased. *)
Definition spellings (ws : list WordData) : list string :=
  map (fun w => toLowerCase (word w)) ws.

(** A call of the service on the word list. *)
Inductive operation :=
| Save (w : WordData) (uuid : string) (now : Z)
| Remove (wordId : string)
| Update (w : WordData).

Definition apply (op : operation) (myList : item) : item :=
  match op with
  | Save w uuid now => snd (saveWord toLowerCase w uuid now myList)
  | Remove wordId => removeWord wordId myList
  | Update w => updateWord w myList
  end.

Fixpoint applyAll (ops : list operation) (myList : item) : item :=
  match ops with
  | [] => myList
  | op :: rest => applyAll rest (apply op myList)
  end.

(** The id a [Save] brings is not in use, and an [Update] keeps
    the spelling of the word it replaces. *)
Definition admissible (op : operation) (myList : item) : Prop :=
  match op with
  | Save _ uuid _ => ~ In (Some uuid) (ids (getSavedWords myList))
  | Remove _ => True
  | Update w =>
      forall w', In w' (getSavedWords myList) -> id w' = id w ->
                 toLowerCase (word w') = toLowerCase (word w)
  end.

Fixpoint admissibleAll (ops : list operation) (myList : item) : Prop :=
  match ops with
  | [] => True
  | op :: rest => admissible op myList /\ admissibleAll rest (apply op myList)
  end.

End Sequences.

End StorageOps.

(** ** Text helpers of the language *)

Module JSText.
Import JS.

(** [WhiteSpace] and [LineTerminator] code points, what
    [String.prototype.trim] strips. *)
Definition isWhiteSpace (c : N) : bool :=
  ((9 <=? c) && (c <=? 13) || (c =? 32) || (c =? 160) || (c =? 5760)
   || (8192 <=? c) && (c <=? 8202) || (c =? 8232) || (c =? 8233)
   || (c =? 8239) || (c =? 8287) || (c =? 12288) || (c =? 65279))%N.

Fixpoint trimStart (s : jsstring) : jsstring :=
  match s with
  | c :: rest => if isWhiteSpace c then trimStart rest else s
  | [] => []
  end.

Definition trim (s : jsstring) : jsstring :=
  rev (trimStart (rev (trimStart s))).

(** [a || b] on strings: the empty string is falsy. *)
Definition orElse (a : option jsstring) (b : jsstring) : jsstring :=
  match a with
  | Some ((_ :: _) as s) => s
  | _ => b
  end.

(** [!s.trim()] *)
Definition blank (s : jsstring) : bool :=
  match trim s with [] => true | _ => false end.

End JSText.

(** ** The list, daily, news and lookup handlers of [App] *)

Module App.
Import JS JSText Storage StorageOps.
Local Open Scope string_scope.

Record article := { headline : string; content : string }.

Record localStorage := {
  MY_LIST : item;
  DAILY_TASK : dailyItem
}.

Record state := mkApp {
  loading : bool;
  error : option string;
  lookupQuery : jsstring;
  lookupResult : option WordData;
  suggestions : list jsstring;
  showSuggestions : bool;
  dailyTask : option DailyTask;
  myList : list WordData;
  newsArticle : option article;
  storage : localStorage
}.

(** What a handler asks of the outside. *)
Inductive request :=
| Alert (message : string)
| AlertAdded (w : string)
| LookupWord (query : jsstring)
| GenerateDailyWords
| GenerateNewsArticle (words : list string).

Definition handler := state -> state * list request.

Definition withList (l : list WordData) (st : state) : state :=
  mkApp (loading st) (error st) (lookupQuery st) (lookupResult st)
    (suggestions st) (showSuggestions st) (dailyTask st) l
    (newsArticle st) (storage st).

Definition withStorage (ls : localStorage) (st : state) : state :=
  mkApp (loading st) (error st) (lookupQuery st) (lookupResult st)
    (suggestions st) (showSuggestions st) (dailyTask st) (myList st)
    (newsArticle st) ls.

Definition withDaily (d : option DailyTask) (st : state) : state :=
  mkApp (loading st) (error st) (lookupQuery st) (lookupResult st)
    (suggestions st) (showSuggestions st) d (myList st)
    (newsArticle st) (storage st).

Definition withLoading (b : bool) (st : state) : state :=
  mkApp b (error st) (lookupQuery st) (lookupResult st)
    (suggestions st) (showSuggestions st) (dailyTask st) (myList st)
    (newsArticle st) (storage st).

Definition withError (e : option string) (st : state) : state :=
  mkApp (loading st) e (lookupQuery st) (lookupResult st)
    (suggestions st) (showSuggestions st) (dailyTask st) (myList st)
    (newsArticle st) (storage st).

Definition withQuery (q : jsstring) (st : state) : state :=
  mkApp (loading st) (error st) q (lookupResult st)
    (suggestions st) (showSuggestions st) (dailyTask st) (myList st)
    (newsArticle st) (storage st).

Definition withResult (r : option WordData) (st : state) : state :=
  mkApp (loading st) (error st) (lookupQuery st) r
    (suggestions st) (showSuggestions st) (dailyTask st) (myList st)
    (newsArticle st) (storage st).

Definition withSuggestions (l : list jsstring) (st : state) : state :=
  mkApp (loading st) (error st) (lookupQuery st) (lookupResult st)
    l (showSuggestions st) (dailyTask st) (myList st)
    (newsArticle st) (storage st).

Definition withShow (b : bool) (st : state) : state :=
  mkApp (loading st) (error st) (lookupQuery st) (lookupResult st)
    (suggestions st) b (dailyTask st) (myList st)
    (newsArticle st) (storage st).

Definition withNews (a : option article) (st : state) : state :=
  mkApp (loading st) (error st) (lookupQuery st) (lookupResult st)
    (suggestions st) (showSuggestions st) (dailyTask st) (myList st)
    a (storage st).

Definition setMyListItem (i : item) (st : state) : state :=
  withStorage {| MY_LIST := i; DAILY_TASK := DAILY_TASK (storage st) |} st.

Definition setDailyItem (d : dailyItem) (st : state) : state :=
  withStorage {| MY_LIST := MY_LIST (storage st); DAILY_TASK := d |} st.

(** The state of the first render, over a given [localStorage]. *)
Definition initial (ls : localStorage) : state :=
  mkApp false None [] None [] false None [] None ls.

(** The effect run when the view changes: both mirrors are re-read. *)
Definition syncFromStorage (st : state) : state :=
  withDaily (getDailyTask (DAILY_TASK (storage st)))
    (withList (getSavedWords (MY_LIST (storage st))) st).

Section Handlers.

Variable toLowerCase : string -> string.

(** [saveToMyList] *)
Definition saveToMyList (w : WordData) (uuid : string) (now : Z) : handler :=
  fun st =>
    let (added, i) := saveWord toLowerCase w uuid now (MY_LIST (storage st)) in
    if added then
      let st1 := setMyListItem i st in
      (withList (getSavedWords (MY_LIST (storage st1))) st1,
       [AlertAdded (word w)])
    else (st, [Alert "Word already in your list."]).

(** [removeFromMyList]: [if (word.id)] skips an absent or empty id. *)
Definition removeFromMyList (w : WordData) : handler :=
  fun st =>
    match id w with
    | Some ((String _ _) as wordId) =>
        let st1 := setMyListItem (removeWord wordId (MY_LIST (storage st))) st in
        (withList (getSavedWords (MY_LIST (storage st1))) st1, [])
    | _ => (st, [])
    end.

(** [updateInMyList] *)
Definition updateInMyList (w : WordData) : handler :=
  fun st =>
    let st1 := setMyListItem (updateWord w (MY_LIST (storage st))) st in
    (withList (getSavedWords (MY_LIST (storage st1))) st1, []).

(** The [isSaved] flag given to a word card of the lookup and daily
    views. *)
Definition isSaved (w : WordData) (st : state) : bool :=
  existsb (fun w' => String.eqb (toLowerCase (word w')) (toLowerCase (word w)))
    (myList st).

(** A click on a card of the list. *)
Inductive listEvent :=
| SaveClicked (w : WordData) (uuid : string) (now : Z)
| RemoveClicked (w : WordData)
| CustomSaved (w : WordData)
| ViewChanged.

Definition onList (e : listEvent) : handler :=
  match e with
  | SaveClicked w uuid now => saveToMyList w uuid now
  | RemoveClicked w => removeFromMyList w
  | CustomSaved w => updateInMyList w
  | ViewChanged => fun st => (syncFromStorage st, [])
  end.

Fixpoint onListAll (es : list listEvent) (st : state) : state :=
  match es with
  | [] => st
  | e :: rest => onListAll rest (fst (onList e st))
  end.

End Handlers.

(** [handleGenerateDaily], up to the [await]; [today] is
    [new Date().toISOString().split('T')[0]] at the click. *)
Definition handleGenerateDaily (today : string) : handler :=
  fun st =>
    match dailyTask st with
    | Some task =>
        if String.eqb (date task) today then (st, [])
        else (withError None (withLoading true st), [GenerateDailyWords])
    | None => (withError None (withLoading true st), [GenerateDailyWords])
    end.

(** The rest of [handleGenerateDaily]: the words arrived ([Some]) or
    the call failed ([None]); [finally] clears the loading flag. *)
Definition dailyWordsSettled (today : string) (result : option (list WordData))
  : handler :=
  fun st =>
    match result with
    | Some ws =>
        let task := {| date := today; words := ws |} in
        let st1 := setDailyItem (saveDailyTask task (DAILY_TASK (storage st))) st in
        (withLoading false (withDaily (Some task) st1), [])
    | None =>
        (withLoading false
           (withError (Some "Failed to generate daily words.") st), [])
    end.

(** [handleGenerateNews], up to the [await].  [shuffled] is the array
    [[...myList].sort(() => 0.5 - Math.random())] leaves. *)
Definition handleGenerateNews (shuffled : list WordData) : handler :=
  fun st =>
    if (length (myList st) <? 5)%nat then
      (withError
         (Some "Please add at least 5 words to your list to generate news.")
         st, [])
    else
      let selected := map word (firstn 10 shuffled) in
      (withError None (withLoading true st), [GenerateNewsArticle selected]).

(** The suggestions effect, once the debounce timer fired.
    [seenQuery] is the [lookupQuery] of the render that scheduled it;
    [fetched] is the [word] of every item of the response ([None]: the
    response was not ok or the request failed). *)
Definition fetchSuggestions (seenQuery : jsstring)
    (fetched : option (list jsstring)) : handler :=
  fun st =>
    if (1 <? length (trim seenQuery))%nat then
      match fetched with
      | Some words =>
          (withShow true (withSuggestions (firstn 5 words) st), [])
      | None => (st, [])
      end
    else (withShow false (withSuggestions [] st), []).

(** The dropdown is rendered when [showSuggestions && suggestions.length > 0]. *)
Definition dropdown (st : state) : list jsstring :=
  if showSuggestions st then suggestions st else [].

(** [handleLookup], up to the [await].  [seenQuery] is the
    [lookupQuery] of the render the handler belongs to. *)
Definition handleLookupFrom (seenQuery : jsstring)
    (queryOverride : option jsstring) : handler :=
  fun st =>
    let query := orElse queryOverride seenQuery in
    if blank query then (st, [])
    else
      (withError None (withLoading true (withShow false st)),
       [LookupWord query]).

(** A click on the search button or the Enter key. *)
Definition handleLookup (queryOverride : option jsstring) : handler :=
  fun st => handleLookupFrom (lookupQuery st) queryOverride st.

(** The rest of [handleLookup]. *)
Definition lookupSettled (result : option WordData) : handler :=
  fun st =>
    match result with
    | Some data => (withLoading false (withResult (Some data) st), [])
    | None =>
        (withLoading false
           (withError (Some "Failed to look up word. Please try again.") st),
         [])
    end.

(** [handleSuggestionClick]: [setLookupQuery], [setShowSuggestions(false)],
    then [handleLookup(suggestion)], which still sees the query of the
    render. *)
Definition handleSuggestionClick (suggestion : jsstring) : handler :=
  fun st =>
    handleLookupFrom (lookupQuery st) (Some suggestion)
      (withShow false (withQuery suggestion st)).

(** The component after its first effect, over a store holding
    the given words. *)
Definition mounted (ws : list WordData) : state :=
  syncFromStorage (initial {| MY_LIST := Stored ws; DAILY_TASK := NoTask |}).

Definition fiveWords : list WordData :=
  [stamped (entry "apple") "id-1" 1; stamped (entry "pear") "id-2" 2;
   stamped (entry "plum") "id-3" 3; stamped (entry "fig") "id-4" 4;
   stamped (entry "lime") "id-5" 5].

End App.

(** ** Voice selection of the speech output *)

Module Speech.

(** A [SpeechSynthesisVoice], by the two attributes the code reads. *)
Record voice := { lang : string; name : string }.

(** [s.includes(sub)] *)
Fixpoint includes (s sub : string) : bool :=
  if String.prefix sub s then true
  else match s with
       | EmptyString => false
       | String _ rest => includes rest sub
       end.

Definition indian (v : voice) : bool :=
  String.eqb (lang v) "en-IN" || String.eqb (lang v) "hi-IN".

(** [a || b] on the results of [find]. *)
Definition orFind (a b : option voice) : option voice :=
  match a with
  | Some v => Some v
  | None => b
  end.

Record utterance := {
  text : string;
  chosen : option voice;
  utteranceLang : string;
  rate : option Q
}.

Inductive speechCall :=
| Cancel
| Speak (u : utterance).

Section Voices.

Variable toLowerCase : string -> string.

(** The three searches the two components share. *)
Definition femaleIndian (voices : list voice) : option voice :=
  find (fun v => indian v && includes (toLowerCase (name v)) "female") voices.
Definition googleIndian (voices : list voice) : option voice :=
  find (fun v => indian v && includes (name v) "Google") voices.
Definition englishIndian (voices : list voice) : option voice :=
  find (fun v => String.eqb (lang v) "en-IN") voices.
Definition hindiIndian (voices : list voice) : option voice :=
  find (fun v => String.eqb (lang v) "hi-IN") voices.

(** [indianVoice] of [playAudio] in the word card: four searches. *)
Definition cardVoice (voices : list voice) : option voice :=
  orFind (femaleIndian voices)
    (orFind (googleIndian voices)
       (orFind (englishIndian voices) (hindiIndian voices))).

(** [indianVoice] of [speakResponse] in the tutor: three searches. *)
Definition tutorVoice (voices : list voice) : option voice :=
  orFind (femaleIndian voices)
    (orFind (googleIndian voices) (englishIndian voices)).

(** [playAudio] of the word card; the language is ['en-IN'] when no
    search finds a voice, and the rate is left alone. *)
Definition playAudio (s : string) (voices : list voice) : list speechCall :=
  [Cancel;
   Speak match cardVoice voices with
         | Some v => {| text := s; chosen := Some v;
                        utteranceLang := lang v; rate := None |}
         | None => {| text := s; chosen := None;
                      utteranceLang := "en-IN"; rate := None |}
         end].

(** [speakResponse] of the tutor; the language is left empty, as the
    constructor makes it, when no search finds a voice, and the rate
    is set to 1. *)
Definition speakResponse (s : string) (voices : list voice)
  : list speechCall :=
  [Cancel;
   Speak match tutorVoice voices with
         | Some v => {| text := s; chosen := Some v;
                        utteranceLang := lang v; rate := Some 1 |}
         | None => {| text := s; chosen := None;
                      utteranceLang := ""; rate := Some 1 |}
         end].

(** The utterance a list of calls speaks. *)
Definition spoken (calls : list speechCall) : option utterance :=
  match calls with
  | [Cancel; Speak u] => Some u
  | _ => None
  end.

End Voices.

End Speech.

(** ** The conversation of the tutor *)

Module Chat.
Import JS JSText.

Inductive Role := user | model | system.

(** A [ChatMessage], by the two fields the tutor sets. *)
Record ChatMessage := { role : Role; text : jsstring }.

(** The state [handleSend] reads and writes; [chatSession] tells
    whether [chatSessionRef.current] holds a chat. *)
Record state := mkChat {
  messages : list ChatMessage;
  input : jsstring;
  isLoading : bool;
  chatSession : bool
}.

Inductive chatCall :=
| SpeechCancel
| ChatsCreate
| SendMessage (message : jsstring).

Definition greeting : jsstring :=
  lit "Hello! I am your VocabMaster Tutor. I can help you with grammar, pronunciation, and conversation practice. What topic would you like to discuss today?".

Definition initial : state :=
  mkChat [{| role := model; text := greeting |}] [] false false.

Definition noAnswer : jsstring :=
  lit "I'm sorry, I couldn't generate a response.".
Definition apology : jsstring :=
  lit "Sorry, I encountered an error. Please try again.".

Definition say (r : Role) (t : jsstring) (st : state) : state :=
  mkChat (messages st ++ [{| role := r; text := t |}])
    (input st) (isLoading st) (chatSession st).

(** The [catch] and [finally] blocks. *)
Definition failed (st : state) : state :=
  let st := say model apology st in
  mkChat (messages st) (input st) false (chatSession st).

(** [handleSend], up to the [await].  [seenInput] and [seenLoading]
    are the [input] and [isLoading] of the render the handler belongs
    to.  [initChat] creates the session when the reference is empty;
    [creates] tells whether that succeeds: when it throws, the
    [catch] and [finally] blocks run at once and nothing is sent. *)
Definition handleSend (seenInput : jsstring) (seenLoading : bool)
    (textOverride : option jsstring) (creates : bool) (st : state)
  : state * list chatCall :=
  let textToSend := orElse textOverride seenInput in
  if blank textToSend || seenLoading then (st, [])
  else
    let st := say user textToSend st in
    let st := mkChat (messages st) [] true (chatSession st) in
    if chatSession st then (st, [SpeechCancel; SendMessage textToSend])
    else if creates then
      (mkChat (messages st) (input st) (isLoading st) true,
       [SpeechCancel; ChatsCreate; SendMessage textToSend])
    else (failed st, [SpeechCancel; ChatsCreate]).

(** The rest of [handleSend], once the request has settled:
    [Some answer] is [result.text] ([None] when it is absent), [None]
    a rejected request. *)
Definition sendSettled (result : option (option jsstring)) (st : state)
  : state :=
  match result with
  | Some answer =>
      let st := say model (orElse answer noAnswer) st in
      mkChat (messages st) (input st) false (chatSession st)
  | None => failed st
  end.

Definition isSendMessage (c : chatCall) : bool :=
  match c with SendMessage _ => true | _ => false end.

(** [onChange] of the text box. *)
Definition setInput (value : jsstring) (st : state) : state :=
  mkChat (messages st) value (isLoading st) (chatSession st).

(** One turn as the user sees it: the text box is edited or left as
    it is, a send is made from the current render (by the button or
    the Enter key, or by the recogniser with its transcript), and the
    request settles if one was made. *)
Record turn := {
  typed : option jsstring;
  transcript : option jsstring;
  creates : bool;
  outcome : option (option jsstring)
}.

Definition exchange (t : turn) (st : state) : state * list chatCall :=
  let st :=
    match typed t with
    | Some value => setInput value st
    | None => st
    end in
  let (st1, calls) :=
    handleSend (input st) (isLoading st) (transcript t) (creates t) st in
  (if existsb isSendMessage calls then sendSettled (outcome t) st1 else st1,
   calls).

Fixpoint converse (turns : list turn) (st : state)
  : state * list chatCall :=
  match turns with
  | [] => (st, [])
  | t :: rest =>
      let (st1, calls1) := exchange t st in
      let (st2, calls2) := converse rest st1 in
      (st2, calls1 ++ calls2)
  end.

(** The other speaker. *)
Definition other (r : Role) : Role :=
  match r with model => user | _ => model end.

(** The messages take turns, [expected] speaking first. *)
Fixpoint alternating (expected : Role) (l : list ChatMessage) : Prop :=
  match l with
  | [] => True
  | m :: rest => role m = expected /\ alternating (other expected) rest
  end.

(** The texts of the user's messages, and the texts sent. *)
Definition userTexts (l : list ChatMessage) : list jsstring :=
  flat_map (fun m => match role m with user => [text m] | _ => [] end) l.

Definition sentTexts (calls : list chatCall) : list jsstring :=
  flat_map (fun c => match c with SendMessage t => [t] | _ => [] end) calls.

End Chat.

(* ================================================================= *)
(** * Part II: properties *)
(* ================================================================= *)

(** Linear goals over quotients and remainders by constants. *)
Ltac use_euclid :=
  zify; Z.to_euclidean_division_equations; lia.

Module Base64Facts.
Import JS Base64 Audio.

Lemma list_ind3 {A : Type} (P : list A -> Prop) :
  P [] -> (forall a, P [a]) -> (forall a b, P [a; b]) ->
  (forall a b c l, P l -> P (a :: b :: c :: l)) ->
  forall l, P l.
Proof.
  intros H0 H1 H2 H3.
  assert (H : forall l, P l /\ (forall a, P (a :: l)) /\ (forall a b, P (a :: b :: l))).
  { induction l as [|x l [IH0 [IH1 IH2]]]; repeat split; auto. }
  intros l; apply H.
Qed.

Lemma char_sextet_char n : (n < 64)%N -> char_sextet (sextet_char n) = Some n.
Proof.
  intros Hn. unfold sextet_char, char_sextet.
  repeat match goal with
         | |- context [(?a <? ?b)%N] => destruct (N.ltb_spec a b)
         | |- context [(?a <=? ?b)%N] => destruct (N.leb_spec a b)
         | |- context [(?a =? ?b)%N] => destruct (N.eqb_spec a b)
         | _ => progress simpl
         end; try (f_equal; lia); try lia.
Qed.

Lemma sextet_char_plain n :
  sextet_char n <> 61%N /\ is_ascii_whitespace (sextet_char n) = false.
Proof.
  unfold sextet_char, is_ascii_whitespace.
  repeat match goal with
         | |- context [(?a <? ?b)%N] => destruct (N.ltb_spec a b)
         | |- context [(?a =? ?b)%N] => destruct (N.eqb_spec a b)
         | _ => progress simpl
         end; split; try reflexivity; try lia.
Qed.

(** Bytes in, 6-bit groups out. *)
Lemma to_sextets_bound bs :
  Forall (fun b => b < 256)%N bs -> Forall (fun s => s < 64)%N (to_sextets bs).
Proof.
  induction bs as [| a | a b | a b c l IH] using list_ind3; intros H;
    cbn [to_sextets].
  - constructor.
  - inversion_clear H as [|? ? Ha _].
    repeat (apply Forall_cons; [use_euclid|]). constructor.
  - inversion_clear H as [|? ? Ha H']. inversion_clear H' as [|? ? Hb _].
    repeat (apply Forall_cons; [use_euclid|]). constructor.
  - inversion_clear H as [|? ? Ha H']. inversion_clear H' as [|? ? Hb H''].
    inversion_clear H'' as [|? ? Hc Hl].
    repeat (apply Forall_cons; [use_euclid|]). auto.
Qed.

Lemma from_to_sextets bs :
  Forall (fun b => b < 256)%N bs -> from_sextets (to_sextets bs) = bs.
Proof.
  induction bs as [| a | a b | a b c l IH] using list_ind3; intros H.
  - reflexivity.
  - inversion_clear H. cbn [to_sextets from_sextets]. f_equal. use_euclid.
  - inversion_clear H as [|? ? Ha H']. inversion_clear H' as [|? ? Hb _].
    cbn [to_sextets from_sextets]. repeat f_equal; use_euclid.
  - inversion_clear H as [|? ? Ha H']. inversion_clear H' as [|? ? Hb H''].
    inversion_clear H'' as [|? ? Hc Hl].
    cbn [to_sextets from_sextets]. rewrite (IH Hl).
    repeat f_equal; use_euclid.
Qed.

Lemma sextets_chars ss :
  Forall (fun s => s < 64)%N ss -> sextets (map sextet_char ss) = Some ss.
Proof.
  induction 1 as [|s ss Hs _ IH]; simpl; [reflexivity|].
  now rewrite (char_sextet_char s Hs), IH.
Qed.

(** The length of an encoding is a multiple of four; without its
    padding it is never 1 modulo 4. *)
Lemma encode_length bs : (length (encode bs) mod 4 = 0)%nat.
Proof.
  unfold encode. rewrite length_app, length_map.
  induction bs as [| a | a b | a b c l IH] using list_ind3; try reflexivity.
  cbn [to_sextets padding length].
  replace (S (S (S (S (length (to_sextets l))))) + length (padding l))%nat
    with ((length (to_sextets l) + length (padding l)) + 1 * 4)%nat by lia.
  now rewrite Nat.Div0.mod_add.
Qed.

Lemma to_sextets_length bs : (length (to_sextets bs) mod 4 <> 1)%nat.
Proof.
  induction bs as [| a | a b | a b c l IH] using list_ind3;
    try (cbn; congruence).
  cbn [to_sextets length].
  replace (S (S (S (S (length (to_sextets l))))))
    with (length (to_sextets l) + 1 * 4)%nat by lia.
  now rewrite Nat.Div0.mod_add.
Qed.

Lemma filter_all {A : Type} (f : A -> bool) (l : list A) :
  Forall (fun x => f x = true) l -> filter f l = l.
Proof.
  induction 1 as [|x l Hx _ IH]; simpl; [reflexivity|].
  now rewrite Hx, IH.
Qed.

Lemma padding_cases bs :
  padding bs = [] \/ padding bs = [61%N] \/ padding bs = [61%N; 61%N].
Proof.
  induction bs as [| a | a b | a b c l IH] using list_ind3; simpl; auto.
Qed.

Lemma encode_no_whitespace bs :
  filter (fun c => negb (is_ascii_whitespace c)) (encode bs) = encode bs.
Proof.
  apply filter_all. unfold encode. apply Forall_app. split.
  - apply Forall_forall. intros c Hc. apply in_map_iff in Hc.
    destruct Hc as [s [<- _]].
    now rewrite (proj2 (sextet_char_plain s)).
  - destruct (padding_cases bs) as [-> | [-> | ->]]; repeat constructor.
Qed.

Lemma last_Forall (P : N -> Prop) (l : list N) (d : N) :
  Forall P l -> P d -> P (last l d).
Proof.
  intros Hl Hd. induction Hl as [|x l Hx Hl IH]; [exact Hd|].
  destruct l; [exact Hx | exact IH].
Qed.

Lemma last_not_padding (body : list N) :
  (last (map sextet_char body) 0 =? 61)%N = false.
Proof.
  apply N.eqb_neq. apply last_Forall; [|discriminate].
  apply Forall_forall. intros c Hc. apply in_map_iff in Hc.
  destruct Hc as [s [<- _]]. apply sextet_char_plain.
Qed.

Lemma strip_padding_encode bs :
  strip_padding (encode bs) = map sextet_char (to_sextets bs).
Proof.
  unfold strip_padding. rewrite encode_length. simpl Nat.eqb. cbv iota.
  unfold encode. set (body := map sextet_char (to_sextets bs)).
  destruct (padding_cases bs) as [-> | [-> | ->]].
  - rewrite app_nil_r. unfold body. now rewrite last_not_padding.
  - rewrite last_last, removelast_last. cbn [N.eqb Pos.eqb].
    unfold body. now rewrite last_not_padding.
  - change (body ++ [61; 61]%N) with (body ++ [61%N] ++ [61%N]).
    rewrite app_assoc, last_last, removelast_last. cbn [N.eqb Pos.eqb].
    now rewrite last_last, removelast_last.
Qed.

Lemma atob_encode bs :
  Forall (fun b => b < 256)%N bs -> atob (encode bs) = Some bs.
Proof.
  intros H. unfold atob.
  rewrite encode_no_whitespace, strip_padding_encode, length_map.
  destruct (Nat.eqb_spec (length (to_sextets bs) mod 4) 1) as [E|_].
  - exfalso. exact (to_sextets_length bs E).
  - rewrite (sextets_chars _ (to_sextets_bound _ H)).
    now rewrite (from_to_sextets _ H).
Qed.

Lemma fromCharCode_bound buffer :
  Forall (fun b => b < 256)%N (map fromCharCode buffer).
Proof.
  apply Forall_forall. intros c Hc. apply in_map_iff in Hc.
  destruct Hc as [b [<- _]]. unfold fromCharCode.
  pose proof (Byte.to_N_bounded b). lia.
Qed.

Lemma toUint8_fromCharCode b : toUint8 (fromCharCode b) = b.
Proof.
  unfold toUint8, fromCharCode.
  pose proof (Byte.to_N_bounded b).
  rewrite N.mod_small by lia. now rewrite Byte.of_to_N.
Qed.

(** The encoder never throws on the contents of a buffer. *)
Lemma arrayBufferToBase64_total buffer :
  arrayBufferToBase64 buffer = Some (encode (map fromCharCode buffer)).
Proof.
  unfold arrayBufferToBase64, btoa.
  replace (forallb (fun c => (c <=? 255)%N) (map fromCharCode buffer)) with true;
    [reflexivity|].
  symmetry. apply forallb_forall. intros c Hc.
  pose proof (proj1 (Forall_forall _ _) (fromCharCode_bound buffer) c Hc) as Hb.
  apply N.leb_le. simpl in Hb. lia.
Qed.

Lemma base64ToUint8Array_encode buffer :
  base64ToUint8Array (encode (map fromCharCode buffer)) = Some buffer.
Proof.
  unfold base64ToUint8Array.
  rewrite (atob_encode _ (fromCharCode_bound buffer)), map_map.
  f_equal. rewrite <- (map_id buffer) at 2.
  apply map_ext. apply toUint8_fromCharCode.
Qed.

(** C7.  For every byte sequence [b] (empty, with zero bytes, with any
    of the 256 byte values), [arrayBufferToBase64 b] returns a text and
    [base64ToUint8Array] of that text returns [b] itself. *)
Theorem base64_roundtrip (b : list byte) :
  exists text,
    arrayBufferToBase64 b = Some text /\ base64ToUint8Array text = Some b.
Proof.
  exists (encode (map fromCharCode b)). split.
  - apply arrayBufferToBase64_total.
  - apply base64ToUint8Array_encode.
Qed.

End Base64Facts.

Module PCMFacts.
Import JS Audio.

Lemma Math_min_spec a b :
  (a <= b /\ Math_min a b = a) \/ (b < a /\ Math_min a b = b).
Proof.
  unfold Math_min. destruct (Qle_bool a b) eqn:E.
  - left. split; [now apply Qle_bool_iff | reflexivity].
  - right. split; [|reflexivity].
    apply Qnot_le_lt. intros H. apply Qle_bool_iff in H. congruence.
Qed.

Lemma Math_max_spec a b :
  (a <= b /\ Math_max a b = b) \/ (b < a /\ Math_max a b = a).
Proof.
  unfold Math_max. destruct (Qle_bool a b) eqn:E.
  - left. split; [now apply Qle_bool_iff | reflexivity].
  - right. split; [|reflexivity].
    apply Qnot_le_lt. intros H. apply Qle_bool_iff in H. congruence.
Qed.

Lemma ltb_spec a b : (a < b /\ ltb a b = true) \/ (b <= a /\ ltb a b = false).
Proof.
  unfold ltb. destruct (Qle_bool b a) eqn:E.
  - right. split; [now apply Qle_bool_iff | reflexivity].
  - left. split; [|reflexivity].
    apply Qnot_le_lt. intros H. apply Qle_bool_iff in H. congruence.
Qed.

Lemma clamp_range x : -1 <= clamp x <= 1.
Proof.
  unfold clamp.
  destruct (Math_min_spec 1 x) as [[H1 ->] | [H1 ->]];
    destruct (Math_max_spec (-1) 1) as [[H2 E] | [H2 E]];
    destruct (Math_max_spec (-1) x) as [[H3 E'] | [H3 E']];
    try rewrite E; try rewrite E'; lra.
Qed.

Lemma clamp_cases x :
  (x < -1 -> clamp x == -1) /\ (1 < x -> clamp x == 1) /\
  (-1 <= x <= 1 -> clamp x == x).
Proof.
  unfold clamp.
  destruct (Math_min_spec 1 x) as [[H1 ->] | [H1 ->]];
    destruct (Math_max_spec (-1) 1) as [[H2 E] | [H2 E]];
    destruct (Math_max_spec (-1) x) as [[H3 E'] | [H3 E']];
    try rewrite E; try rewrite E'; repeat split; intros; lra.
Qed.

(** Truncation moves toward zero by less than one. *)
Lemma truncate_nonneg q :
  0 <= q -> inject_Z (truncate q) <= q /\ q < inject_Z (truncate q) + 1.
Proof.
  destruct q as [n d]. unfold truncate, Qle, Qlt. simpl.
  intros Hn. rewrite Z.mul_1_r in Hn.
  rewrite Z.quot_div_nonneg by lia.
  pose proof (Z.div_mod n (Zpos d) ltac:(lia)) as Hdm.
  pose proof (Z.mod_pos_bound n (Zpos d) ltac:(lia)) as Hb.
  split; nia.
Qed.

Lemma truncate_opp q : truncate (- q) = (- truncate q)%Z.
Proof.
  destruct q as [n d]. unfold truncate. simpl.
  apply Z.quot_opp_l. lia.
Qed.

Lemma truncate_nonpos q :
  q <= 0 -> q <= inject_Z (truncate q) /\ inject_Z (truncate q) < q + 1.
Proof.
  intros Hq.
  destruct (truncate_nonneg (- q)) as [H1 H2]; [lra|].
  rewrite truncate_opp, inject_Z_opp in H1, H2. split; lra.
Qed.

(** A store into an [Int16Array] keeps an integer of the 16-bit
    range as it is. *)
Lemma ToInt16_in_range q :
  (-32768 <= truncate q <= 32767)%Z -> ToInt16 q = truncate q.
Proof.
  intros H. unfold ToInt16.
  destruct (Z.leb_spec 32768 (truncate q mod 65536)); use_euclid.
Qed.

Lemma ToInt16_range q : (-32768 <= ToInt16 q <= 32767)%Z.
Proof.
  unfold ToInt16.
  destruct (Z.leb_spec 32768 (truncate q mod 65536)); use_euclid.
Qed.

Lemma scaled_truncate_range s :
  -1 <= s <= 1 -> (-32768 <= truncate (scaled s) <= 32767)%Z.
Proof.
  intros Hs. unfold scaled.
  destruct (ltb_spec s 0) as [[H ->] | [H ->]].
  - destruct (truncate_nonpos (s * 32768)) as [H1 H2]; [lra|].
    split.
    + rewrite Zle_Qle. change (inject_Z (-32768)) with (-32768). lra.
    + assert (truncate (s * 32768) < 1)%Z; [|lia].
      rewrite Zlt_Qlt. change (inject_Z 1) with 1. lra.
  - destruct (truncate_nonneg (s * 32767)) as [H1 H2]; [lra|].
    split.
    + assert (-1 < truncate (s * 32767))%Z; [|lia].
      rewrite Zlt_Qlt. change (inject_Z (-1)) with (-1). lra.
    + rewrite Zle_Qle. change (inject_Z 32767) with 32767. lra.
Qed.

(** On the clamped sample the store into the [Int16Array] is the
    plain truncation. *)
Lemma pcmSample_truncate x : pcmSample x = truncate (scaled (clamp x)).
Proof.
  apply ToInt16_in_range. apply scaled_truncate_range. apply clamp_range.
Qed.

Lemma scaled_negative s : s < 0 -> scaled s = s * 32768.
Proof.
  intros H. unfold scaled.
  destruct (ltb_spec s 0) as [[H' ->] | [H' ->]]; [reflexivity | lra].
Qed.

Lemma scaled_nonnegative s : 0 <= s -> scaled s = s * 32767.
Proof.
  intros H. unfold scaled.
  destruct (ltb_spec s 0) as [[H' ->] | [H' ->]]; [lra | reflexivity].
Qed.



(** *** Encoding then decoding *)

Lemma to_N_toUint8 n : Byte.to_N (toUint8 n) = (n mod 256)%N.
Proof.
  unfold toUint8. destruct (Byte.of_N (n mod 256)) as [b|] eqn:E.
  - now apply Byte.to_of_N.
  - apply Byte.of_N_None_iff in E.
    pose proof (N.mod_upper_bound n 256 ltac:(discriminate)). lia.
Qed.

Lemma getInt16_int16Bytes v :
  (-32768 <= v <= 32767)%Z ->
  exists lo hi, int16Bytes v = [lo; hi] /\ getInt16 lo hi = v.
Proof.
  intros Hv. unfold int16Bytes. do 2 eexists. split; [reflexivity|].
  unfold getInt16. rewrite !to_N_toUint8.
  rewrite !N.mod_small by use_euclid.
  rewrite !Z2N.id by use_euclid.
  destruct (Z.leb_spec 32768 (v mod 256 + 256 * ((v / 256) mod 256)));
    use_euclid.
Qed.

Lemma decodePCM_floatTo16BitPCM input :
  decodePCM (floatTo16BitPCM input) = Some (map heard input).
Proof.
  induction input as [|x input IH]; [reflexivity|].
  cbn [floatTo16BitPCM flat_map]. fold (floatTo16BitPCM input).
  destruct (getInt16_int16Bytes _ (ToInt16_range (scaled (clamp x))))
    as (lo & hi & E & G).
  fold (pcmSample x) in E, G. rewrite E.
  cbn [app decodePCM]. rewrite IH, G. reflexivity.
Qed.

Lemma heard_scale x : heard x == inject_Z (pcmSample x) * (1 # 32768).
Proof. unfold heard, Qeq. simpl. lia. Qed.

(** The decoded value lies between zero and the sample: less than
    one step away below zero, less than two steps away above. *)
Lemma heard_error x :
  -1 <= x <= 1 ->
  (x < 0 -> x <= heard x /\ heard x - x < 1 # 32768) /\
  (0 <= x -> heard x <= x /\ x - heard x < 2 # 32768).
Proof.
  intros Hx.
  destruct (clamp_cases x) as (_ & _ & Hc). specialize (Hc Hx).
  rewrite (heard_scale x), (pcmSample_truncate x).
  split; intros H.
  - rewrite scaled_negative by lra.
    destruct (truncate_nonpos (clamp x * 32768)) as [H1 H2]; [lra|].
    set (t := inject_Z (truncate (clamp x * 32768))) in *. clearbody t.
    split; lra.
  - rewrite scaled_nonnegative by lra.
    destruct (truncate_nonneg (clamp x * 32767)) as [H1 H2]; [lra|].
    set (t := inject_Z (truncate (clamp x * 32767))) in *. clearbody t.
    split; lra.
Qed.

(** C1, as the code has it.  For every frame of samples in [-1,1],
    decoding the encoded frame yields one value per sample, and the
    absolute error is below two quantization steps ([2/32768]); it is
    below one step for a negative sample. *)
Theorem pcm_roundtrip_error (input : list Q) :
  Forall (fun x => -1 <= x <= 1) input ->
  roundtrip_within
    (fun x y => Qabs (x - y) < 2 # 32768 /\
                (x < 0 -> Qabs (x - y) < 1 # 32768))
    input.
Proof.
  intros H. exists (map heard input). split.
  - apply decodePCM_floatTo16BitPCM.
  - induction H as [|x input Hx _ IH]; cbn [map]; constructor; [|exact IH].
    destruct (heard_error x Hx) as [Hneg Hpos].
    destruct (Qlt_le_dec x 0) as [Lt | Ge].
    + destruct (Hneg Lt) as [H1 H2].
      split; [|intros _]; apply Qabs_Qlt_condition; split; lra.
    + destruct (Hpos Ge) as [H1 H2].
      split; [|intros Lt; lra]. apply Qabs_Qlt_condition; split; lra.
Qed.

Lemma pcm_roundtrip_error_witness :
  roundtrip_within
    (fun x y => Qabs (x - y) < 2 # 32768 /\
                (x < 0 -> Qabs (x - y) < 1 # 32768))
    [65535 # 65536; -1 # 3; 1; -1].
Proof.
  apply pcm_roundtrip_error.
  repeat constructor; vm_compute; discriminate.
Defined.

(** The one-step bound of C1 fails at the sample [65535/65536]
    ([1 - 2^-16], a [Float32] value): it is encoded as [32766] and
    decoded as [32766/32768], which is [3/65536] away. *)
Lemma pcm_roundtrip_one_step_fails :
  Forall (fun x => -1 <= x <= 1) [65535 # 65536] /\
  ~ roundtrip_within (fun x y => Qabs (x - y) <= 1 # 32768) [65535 # 65536].
Proof.
  split.
  - repeat constructor; vm_compute; discriminate.
  - intros (output & Hdec & Hall).
    vm_compute in Hdec. injection Hdec as <-.
    inversion_clear Hall as [|? ? ? ? Hbad _].
    vm_compute in Hbad. now apply Hbad.
Qed.

End PCMFacts.

Module SchedulerFacts.
Import JS Audio Community.
Local Open Scope action_scope.

Lemma seq_fst (a b : action) st : fst ((a ;; b) st) = fst (b (fst (a st))).
Proof.
  unfold seq. destruct (a st) as [st1 c1]. simpl.
  now destruct (b st1).
Qed.

Lemma seq_snd (a b : action) st :
  snd ((a ;; b) st) = snd (a st) ++ snd (b (fst (a st))).
Proof.
  unfold seq. destruct (a st) as [st1 c1]. simpl.
  now destruct (b st1).
Qed.

Lemma Math_max_ge a b : a <= Math_max a b /\ b <= Math_max a b.
Proof.
  destruct (PCMFacts.Math_max_spec a b) as [[H ->] | [H ->]]; split; lra.
Qed.

Lemma duration_pos frames samples :
  frames <> 0%nat ->
  0 < duration {| numberOfFrames := frames;
                  bufferRate := OUTPUT_SAMPLE_RATE;
                  channelData := samples |}.
Proof.
  intros H. unfold duration, Qlt. simpl. lia.
Qed.

(** One call of [playAudioChunk]: either nothing happens, or exactly
    one source is started, at [max(currentTime, cursor)], and the
    cursor moves to the end of that buffer. *)
Lemma playAudioChunk_step base64Audio currentTime st :
  playAudioChunk base64Audio currentTime st = (st, []) \/
  exists buffer,
    let startTime := Math_max currentTime (nextStartTimeRef st) in
    playAudioChunk base64Audio currentTime st =
      (set_nextStartTimeRef (startTime + duration buffer) st,
       [SourceStart startTime buffer]) /\
    0 < duration buffer.
Proof.
  unfold playAudioChunk, whenSet.
  destruct (audioContextRef st); [|now left].
  destruct (base64ToUint8Array base64Audio) as [audioBytes|]; [|now left].
  destruct (Nat.eqb_spec (length audioBytes / 2) 0) as [|Hf]; [now left|].
  destruct (decodePCM audioBytes) as [samples|]; [|now left].
  right. eexists. split; [reflexivity|].
  now apply duration_pos.
Qed.

Lemma playAudioChunk_decodeChunk base64Audio currentTime st :
  audioContextRef st <> None ->
  playAudioChunk base64Audio currentTime st =
    match decodeChunk base64Audio with
    | None => (st, [])
    | Some buffer =>
        let startTime := Math_max currentTime (nextStartTimeRef st) in
        (set_nextStartTimeRef (startTime + duration buffer) st,
         [SourceStart startTime buffer])
    end.
Proof.
  intros Hctx. unfold playAudioChunk, whenSet, decodeChunk.
  destruct (audioContextRef st); [|congruence].
  destruct (base64ToUint8Array base64Audio) as [audioBytes|]; [|reflexivity].
  destruct (length audioBytes / 2 =? 0)%nat; [reflexivity|].
  destruct (decodePCM audioBytes); reflexivity.
Qed.

Lemma duration_nonneg buffer : 0 <= duration buffer.
Proof.
  destruct buffer as [frames [|rate] samples]; unfold duration, Qle; simpl; lia.
Qed.

(** Whatever the clock readings, the contract yields starts that
    never precede the cursor and never overlap. *)
Lemma contractSchedule_ordered chunks :
  forall cursor,
    let starts := fst (contractSchedule cursor chunks) in
    Forall (fun e => cursor <= fst e) starts /\
    StronglySorted startsNoEarlier starts /\
    Sorted startsAfterEnd starts.
Proof.
  induction chunks as [|[[buffer|] now] rest IH]; intros cursor; cbn zeta.
  - repeat constructor.
  - cbn [contractSchedule].
    set (startTime := Math_max now cursor).
    specialize (IH (startTime + duration buffer)).
    destruct (contractSchedule (startTime + duration buffer) rest)
      as [starts final].
    cbn [fst] in *. destruct IH as (Hall & Hsorted & Hchain).
    pose proof (Math_max_ge now cursor) as [_ Hcur]. fold startTime in Hcur.
    pose proof (duration_nonneg buffer) as Hdur.
    repeat split.
    + constructor; [exact Hcur|].
      eapply Forall_impl; [|exact Hall]. cbv beta. intros e He. lra.
    + constructor; [exact Hsorted|].
      eapply Forall_impl; [|exact Hall].
      unfold startsNoEarlier. cbn [fst]. intros e He. lra.
    + constructor; [exact Hchain|].
      destruct Hall as [|e starts He _]; constructor.
      unfold startsAfterEnd. cbn [fst snd]. exact He.
  - apply IH.
Qed.

Lemma audioContextRef_set_nextStartTimeRef t st :
  audioContextRef (set_nextStartTimeRef t st) = audioContextRef st.
Proof. reflexivity. Qed.

Lemma playAll_contract arrivals :
  forall st,
    audioContextRef st <> None ->
    contractSchedule (nextStartTimeRef st)
      (map (fun a => (decodeChunk (fst a), snd a)) arrivals) =
    (sourceStarts (snd (playAll arrivals st)),
     nextStartTimeRef (fst (playAll arrivals st))).
Proof.
  induction arrivals as [|[base64Audio now] rest IH]; intros st Hctx.
  - reflexivity.
  - cbn [map fst snd contractSchedule playAll].
    rewrite seq_fst, seq_snd, (playAudioChunk_decodeChunk base64Audio now st Hctx).
    destruct (decodeChunk base64Audio) as [buffer|]; cbn [fst snd app].
    + set (cursor := Math_max now (nextStartTimeRef st) + duration buffer).
      specialize (IH (set_nextStartTimeRef cursor st) Hctx).
      change (nextStartTimeRef (set_nextStartTimeRef cursor st))
        with cursor in IH at 1.
      rewrite IH. reflexivity.
    + now apply IH.
Qed.

(** C2.  Chunks handed to [playAudioChunk] at arbitrary clock readings
    are scheduled exactly as the scheduler's contract says (start at
    [max(currentTime, cursor)], cursor moved to the end of the chunk);
    no start precedes the cursor the sequence began with, the start
    times are non-decreasing, and every start is at least the
    previous start plus the previous duration. *)
Theorem playback_schedule (arrivals : list (jsstring * Q)) (st : state) :
  audioContextRef st <> None ->
  let starts := sourceStarts (snd (playAll arrivals st)) in
  contractSchedule (nextStartTimeRef st)
    (map (fun a => (decodeChunk (fst a), snd a)) arrivals) =
    (starts, nextStartTimeRef (fst (playAll arrivals st))) /\
  Forall (fun e => nextStartTimeRef st <= fst e) starts /\
  StronglySorted startsNoEarlier starts /\
  Sorted startsAfterEnd starts.
Proof.
  intros Hctx starts.
  pose proof (playAll_contract arrivals st Hctx) as E. fold starts in E.
  split; [exact E|].
  pose proof (contractSchedule_ordered
                (map (fun a => (decodeChunk (fst a), snd a)) arrivals)
                (nextStartTimeRef st)) as H.
  cbn zeta in H. rewrite E in H. exact H.
Qed.

Lemma playback_schedule_witness :
  let arrivals := [(lit "AAAAAA==", 3); (lit "AA==", 3); (lit "AAAAAA==", 3)] in
  audioContextRef liveCall <> None /\
  length (sourceStarts (snd (playAll arrivals liveCall))) = 2%nat /\
  Sorted startsAfterEnd (sourceStarts (snd (playAll arrivals liveCall))).
Proof.
  cbn zeta. split; [discriminate|]. split; [reflexivity|].
  apply (playback_schedule
           [(lit "AAAAAA==", 3); (lit "AA==", 3); (lit "AAAAAA==", 3)]
           liveCall).
  discriminate.
Defined.

(** Two half-second chunks received at the same clock reading [3]:
    the first starts at 3, the second at 3.5. *)
Example two_half_second_chunks :
  map (fun e => (Qred (fst e), Qred (duration (snd e))))
    (sourceStarts
       (snd (playAll [(halfSecondChunk, 3); (halfSecondChunk, 3)] liveCall)))
  = [(3, 1 # 2); (7 # 2, 1 # 2)].
Proof. vm_compute. reflexivity. Qed.

End SchedulerFacts.

Module CallFacts.
Import JS Audio Community.
Import SchedulerFacts.
Local Open Scope action_scope.

(** *** Teardown *)

Lemma endCall_state st :
  fst (endCall st) =
    mkState None (isMicOn st) idle (volumeLevel st) None None None None
      (nextStartTimeRef st) None.
Proof.
  destruct st as [a m s v [ctx|] [src|] [node|] [stream|] t [session|]];
    reflexivity.
Qed.

Lemma endCall_calls st : snd (endCall st) = teardownCalls st.
Proof.
  destruct st as [a m s v [ctx|] [src|] [node|] [stream|] t [session|]];
    unfold endCall, seq, whenSet, assign, emit, teardownCalls; cbn;
    rewrite ?app_nil_r; reflexivity.
Qed.

Lemma endCall_noCall st : noCall (fst (endCall st)).
Proof. rewrite endCall_state. repeat split. Qed.

Lemma noCall_endCall st : noCall st -> endCall st = (st, []).
Proof.
  destruct st as [a m s v ctx src node stream t session].
  intros (Ha & Hs & H1 & H2 & H3 & H4 & H5). cbn in *. subst.
  reflexivity.
Qed.

Lemma released_endCall st :
  released st ->
  endCall st = (setConnectionStatus idle (setActiveCall None st), []).
Proof.
  destruct st as [a m s v ctx src node stream t session].
  intros (H1 & H2 & H3 & H4 & H5). cbn in *. subst.
  reflexivity.
Qed.

(** C6.  After [endCall] the component is in the no-call state, with
    every handle released; [endCall] in that state (in particular a
    second [endCall] in a row) changes nothing and calls nothing.  Every
    step is guarded: the calls of a teardown are exactly those of the
    steps whose ref was still set, and with every handle released
    [endCall] calls nothing and only resets [activeCall] and the status. *)
Theorem endCall_idempotent (st : state) :
  noCall (fst (endCall st)) /\
  endCall (fst (endCall st)) = (fst (endCall st), []) /\
  (noCall st -> endCall st = (st, [])) /\
  snd (endCall st) = teardownCalls st /\
  (released st ->
   endCall st = (setConnectionStatus idle (setActiveCall None st), [])).
Proof.
  split; [apply endCall_noCall|].
  split; [apply noCall_endCall, endCall_noCall|].
  split; [apply noCall_endCall|].
  split; [apply endCall_calls | apply released_endCall].
Qed.

Lemma endCall_idempotent_witness :
  endCall initial = (initial, []) /\
  endCall (fst (endCall liveCall)) = (fst (endCall liveCall), []).
Proof.
  split.
  - apply (endCall_idempotent initial). repeat split.
  - apply (endCall_idempotent liveCall).
Defined.

(** *** A session that opens after the call was ended *)






(** What the late events do leave behind, outside the claim: the open
    event sets the status field, which nothing reads while no call is
    active, and a microphone grant that arrives after the hang-up
    stores its stream and connects a session that no later [endCall]
    is there to release. *)
Remark late_open_sets_status :
  connectionStatus
    (fst (onopen (closure_of initial) (fst (endCall connectingCall)))) =
    connected.
Proof. reflexivity. Qed.

Remark late_grant_keeps_stream :
  let st1 := fst (endCall awaitingMicrophone) in
  let st2 := fst (run [MicGranted (closure_of initial) priya microphone;
                       SessionOpened (closure_of initial)] st1) in
  streamRef st2 = Some microphone /\ sessionPromiseRef st2 <> None /\
  render st2 = RoomList.
Proof. cbv zeta. split; [reflexivity|]. split; [discriminate | reflexivity]. Qed.

(** *** A session error *)

(** C5, as the code has it.  An error event sets the status to
    [error] and does nothing else: no platform call, every ref as it
    was.  While a call is active the call screen then reads
    "Connection Failed".  The teardown runs when [endCall] is invoked
    afterwards, and is then the full teardown of the state the error
    arrived in. *)
Theorem onerror_sets_status_only (st : state) :
  onerror st = (setConnectionStatus error st, []) /\
  (forall profile,
      activeCall st = Some profile ->
      render (fst (onerror st)) = CallScreen profile "Connection Failed") /\
  snd (endCall (fst (onerror st))) = teardownCalls st /\
  noCall (fst (endCall (fst (onerror st)))).
Proof.
  split; [reflexivity|]. split; [|split].
  - intros profile H. unfold render. cbn. now rewrite H.
  - rewrite endCall_calls. reflexivity.
  - apply endCall_noCall.
Qed.

Lemma onerror_sets_status_only_witness :
  render (fst (onerror liveCall)) = CallScreen priya "Connection Failed".
Proof.
  apply (onerror_sets_status_only liveCall). reflexivity.
Defined.

(** The claim as stated fails: an error during a live call releases
    nothing, although there is a session, a stream, two taps and a
    context to release. *)
Lemma onerror_no_teardown :
  snd (onerror liveCall) = [] /\
  length (teardownCalls liveCall) = 5%nat /\
  ~ released (fst (onerror liveCall)).
Proof.
  repeat split. intros (H & _). discriminate H.
Qed.

(** *** Capture, mute and transmission *)

Lemma pcmMimeType_value : pcmMimeType = lit "audio/pcm;rate=16000".
Proof. reflexivity. Qed.

Lemma onaudioprocess_on c inputData st :
  seen_isMicOn c = true ->
  onaudioprocess c inputData st =
    (setVolumeLevel (rms inputData) st,
     match sessionPromiseRef st with
     | Some session => [SendRealtimeInput session (frameMessage inputData)]
     | None => []
     end).
Proof.
  intros Hc. unfold onaudioprocess. rewrite Hc. cbn [negb].
  rewrite Base64Facts.arrayBufferToBase64_total.
  unfold seq, assign, whenSet, emit.
  destruct st as [a m s v ctx src node stream t [session|]]; reflexivity.
Qed.

(** C3, as the code has it.  The handler reads its mute flag first.
    With the flag set (its [isMicOn] false) it returns at once: the
    level is not updated and no chunk is emitted.  With the flag clear
    it updates the level to the root mean square of the frame and
    emits one chunk to the session; nothing else of the state changes
    from frame to frame. *)
Theorem onaudioprocess_mute (c : closure) (inputData : list Q) (st : state) :
  (seen_isMicOn c = false -> onaudioprocess c inputData st = (st, [])) /\
  (seen_isMicOn c = true ->
     forall session,
       sessionPromiseRef st = Some session ->
       onaudioprocess c inputData st =
         (setVolumeLevel (rms inputData) st,
          [SendRealtimeInput session (frameMessage inputData)])).
Proof.
  split.
  - intros Hc. unfold onaudioprocess. now rewrite Hc.
  - intros Hc session Hs. rewrite (onaudioprocess_on c inputData st Hc), Hs.
    reflexivity.
Qed.

Lemma onaudioprocess_mute_witness :
  audioprocess [1 # 2] mutedCall = (mutedCall, []) /\
  snd (audioprocess [1 # 2] liveCall) =
    [SendRealtimeInput
       {| systemInstruction := "You are Priya Sharma";
          responseVoice := "Kore";
          callbacks_closure := closure_of initial |}
       (frameMessage [1 # 2])].
Proof.
  split.
  - apply (onaudioprocess_mute {| seen_isMicOn := false |} [1 # 2] mutedCall).
    reflexivity.
  - change (audioprocess [1 # 2] liveCall)
      with (onaudioprocess (closure_of initial) [1 # 2] liveCall).
    rewrite (proj2 (onaudioprocess_mute (closure_of initial) [1 # 2] liveCall)
               eq_refl _ eq_refl).
    reflexivity.
Defined.

(** The claim as stated fails on the level: a frame processed by a
    muted handler leaves the level as it was, which is not the root
    mean square of the frame. *)
Lemma muted_frame_not_metered :
  (exists node,
      processorRef mutedCall = Some node /\
      seen_isMicOn (onaudioprocess_closure node) = false) /\
  volumeLevel (fst (audioprocess [1 # 2] mutedCall)) = volumeLevel mutedCall /\
  volumeLevel (fst (audioprocess [1 # 2] mutedCall)) <> rms [1 # 2].
Proof.
  split; [eexists; split; reflexivity|].
  split; [reflexivity|]. vm_compute. discriminate.
Qed.

(** The handler keeps the flag of the render it was created in: the
    microphone button changes [isMicOn] in the state, not what a
    running handler does with a frame. *)
Remark toggleMic_unseen inputData st :
  snd (audioprocess inputData (fst (toggleMic st))) =
  snd (audioprocess inputData st).
Proof.
  unfold audioprocess, whenSet, toggleMic, assign. cbn.
  destruct (processorRef st) as [node|]; [|reflexivity].
  unfold onaudioprocess.
  destruct (seen_isMicOn (onaudioprocess_closure node)); [|reflexivity].
  cbn [negb]. rewrite Base64Facts.arrayBufferToBase64_total.
  unfold seq, assign, whenSet, emit. cbn.
  destruct (sessionPromiseRef st); reflexivity.
Qed.

Lemma floatTo16BitPCM_length input :
  length (floatTo16BitPCM input) = (2 * length input)%nat.
Proof.
  induction input as [|x input IH]; [reflexivity|].
  cbn [floatTo16BitPCM flat_map int16Bytes app length].
  fold (floatTo16BitPCM input). rewrite IH. lia.
Qed.

Lemma frameMessage_data inputData :
  base64ToUint8Array (data (frameMessage inputData)) =
    Some (floatTo16BitPCM inputData).
Proof. apply Base64Facts.base64ToUint8Array_encode. Qed.

Lemma audioprocess_frames frames :
  forall st node session,
    processorRef st = Some node ->
    seen_isMicOn (onaudioprocess_closure node) = true ->
    sessionPromiseRef st = Some session ->
    snd (run (map AudioProcess frames) st) =
      map (fun f => SendRealtimeInput session (frameMessage f)) frames.
Proof.
  induction frames as [|f frames IH]; intros st node session Hn Hc Hs.
  - reflexivity.
  - cbn [map run handle]. rewrite seq_snd.
    assert (E : audioprocess f st =
                (setVolumeLevel (rms f) st,
                 [SendRealtimeInput session (frameMessage f)])).
    { unfold audioprocess, whenSet. rewrite Hn.
      rewrite (onaudioprocess_on _ f st Hc). now rewrite Hs. }
    rewrite E. cbn [fst snd app]. f_equal.
    apply (IH _ node session); assumption.
Qed.

(** What a frame's message carries: the MIME type with the 16000 Hz
    rate, and a text that decodes to two bytes per sample, the
    little-endian 16-bit encoding of the samples. *)
Lemma frameMessage_payload inputData :
  mimeType (frameMessage inputData) = lit "audio/pcm;rate=16000" /\
  exists bytes,
    base64ToUint8Array (data (frameMessage inputData)) = Some bytes /\
    length bytes = (2 * length inputData)%nat /\
    decodePCM bytes = Some (map heard inputData).
Proof.
  split; [reflexivity|]. exists (floatTo16BitPCM inputData).
  split; [apply frameMessage_data|].
  split; [apply floatTo16BitPCM_length|].
  apply PCMFacts.decodePCM_floatTo16BitPCM.
Qed.

(** The capture path where it works: on a handler created with
    [isMicOn] true, every frame is sent, one message each, in capture
    order, whatever the microphone button does meanwhile. *)
Lemma handler_sends_each_frame (frames : list (list Q)) (st : state)
    (node : ScriptProcessorNode) (session : Session) :
  processorRef st = Some node ->
  seen_isMicOn (onaudioprocess_closure node) = true ->
  sessionPromiseRef st = Some session ->
  exists messages,
    snd (run (map AudioProcess frames) st) =
      map (SendRealtimeInput session) messages /\
    Forall2 (fun f m =>
               mimeType m = lit "audio/pcm;rate=16000" /\
               exists bytes,
                 base64ToUint8Array (data m) = Some bytes /\
                 length bytes = (2 * length f)%nat /\
                 decodePCM bytes = Some (map heard f))
      frames messages.
Proof.
  intros Hn Hc Hs. exists (map frameMessage frames). split.
  - rewrite (audioprocess_frames frames st node session Hn Hc Hs).
    now rewrite map_map.
  - clear. induction frames as [|f frames IH]; constructor; [|exact IH].
    apply frameMessage_payload.
Qed.

(** Three silent frames of 4096 samples on a first call: three
    messages. *)
Example three_silent_frames_sent :
  Forall (fun f => length f = N.to_nat 4096)
    [silentFrame; silentFrame; silentFrame] /\
  isMicOn liveCall = true /\
  exists m,
    snd (run (map AudioProcess [silentFrame; silentFrame; silentFrame])
           liveCall) =
      [SendRealtimeInput (CallObservations.sessionFor (closure_of initial) priya) m;
       SendRealtimeInput (CallObservations.sessionFor (closure_of initial) priya) m;
       SendRealtimeInput (CallObservations.sessionFor (closure_of initial) priya) m] /\
    mimeType m = lit "audio/pcm;rate=16000".
Proof.
  split; [repeat constructor|]. split; [reflexivity|].
  exists (frameMessage silentFrame).
  rewrite (audioprocess_frames [silentFrame; silentFrame; silentFrame]
             liveCall
             {| bufferSize := 4096;
                onaudioprocess_closure := closure_of initial |}
             (CallObservations.sessionFor (closure_of initial) priya)
             eq_refl eq_refl eq_refl).
  split; reflexivity.
Qed.

(** C9 (defect).  The claim fails on a call started while the
    microphone was switched off.  The user calls, clicks the
    microphone button, hangs up, calls again and clicks the button
    again: the component then shows a live call, [isMicOn] is true,
    the pipeline and the session are in place, and yet three frames
    of 4096 samples send nothing at all.  The handler of the second
    call tests the [isMicOn] of the render that started the call. *)
Theorem unmuted_call_sends_nothing :
  unmutedSecondCall =
    fst (run [CallClicked priya true 0;
              MicGranted (closure_of initial) priya microphone;
              SessionOpened (closure_of initial);
              MicClicked; HangUpClicked;
              CallClicked priya true 10;
              MicGranted (closure_of afterMutedHangUp) priya microphone;
              SessionOpened (closure_of afterMutedHangUp);
              MicClicked] initial) /\
  closure_of afterMutedHangUp = {| seen_isMicOn := false |} /\
  render unmutedSecondCall = CallScreen priya "Live Voice" /\
  connectionStatus unmutedSecondCall = connected /\
  isMicOn unmutedSecondCall = true /\
  processorRef unmutedSecondCall <> None /\
  sessionPromiseRef unmutedSecondCall <> None /\
  Forall (fun f => length f = N.to_nat 4096)
    [silentFrame; silentFrame; silentFrame] /\
  run (map AudioProcess [silentFrame; silentFrame; silentFrame])
    unmutedSecondCall = (unmutedSecondCall, []).
Proof.
  split; [vm_compute; reflexivity|]. split; [reflexivity|].
  split; [reflexivity|]. split; [reflexivity|]. split; [reflexivity|].
  split; [discriminate|]. split; [discriminate|].
  split; [repeat constructor | vm_compute; reflexivity].
Qed.

End CallFacts.

Module StorageFacts.
Import Storage.

Section SaveWord.

Variable toLowerCase : string -> string.

Lemma known_existsb w words :
  existsb (fun w' => String.eqb (toLowerCase (word w'))
                                (toLowerCase (word w))) words = true
  <-> known toLowerCase w words.
Proof.
  rewrite existsb_exists. unfold known.
  split; intros (w' & Hin & H); exists w'; split; auto;
    now apply String.eqb_eq.
Qed.

(** C10.  [saveWord] returns [true] exactly when no stored word has
    the candidate's string up to case.  It then stores one new word in
    front of the words read: its id is the value [crypto.randomUUID()]
    returned, its [dateAdded] the value [Date.now()] returned, and
    every other field is the candidate's.  Otherwise it returns
    [false] and leaves the item as it was. *)
Theorem saveWord_spec (w : WordData) (uuid : string) (now : Z)
    (myList : item) :
  let words := getSavedWords myList in
  let result := saveWord toLowerCase w uuid now myList in
  (fst result = true <-> ~ known toLowerCase w words) /\
  (~ known toLowerCase w words ->
     exists newWord,
       result = (true, Stored (newWord :: words)) /\
       getSavedWords (snd result) = newWord :: words /\
       id newWord = Some uuid /\
       dateAdded newWord = Some now /\
       word newWord = word w /\
       partOfSpeech newWord = partOfSpeech w /\
       hindiMeaning newWord = hindiMeaning w /\
       ipa newWord = ipa w /\
       simplePhonetics newWord = simplePhonetics w /\
       morphology newWord = morphology w /\
       synonyms newWord = synonyms w /\
       antonyms newWord = antonyms w /\
       examples newWord = examples w /\
       userCustomSentence newWord = userCustomSentence w) /\
  (known toLowerCase w words -> result = (false, myList)).
Proof.
  cbn zeta. unfold saveWord.
  pose proof (known_existsb w (getSavedWords myList)) as K.
  destruct (existsb _ (getSavedWords myList)); cbn [negb fst snd].
  - assert (Hk : known toLowerCase w (getSavedWords myList)) by now apply K.
    split; [split; [discriminate | intros H; now destruct H]|].
    split; [intros H; now destruct H | reflexivity].
  - assert (Hk : ~ known toLowerCase w (getSavedWords myList)).
    { intros H. apply K in H. discriminate. }
    split; [split; [intros _; exact Hk | reflexivity]|].
    split; [|intros H; now destruct Hk].
    intros _. exists (stamped w uuid now). repeat split.
Qed.

End SaveWord.

(** A new word is stored under the id and date it was given, although
    the candidate came with an id and a date of its own; a word
    already stored in other capitals is refused. *)
Lemma saveWord_spec_witness :
  let myList := Stored [entry "Apple"] in
  let candidate := stamped (entry "pear") "old-id" 1 in
  (exists newWord,
      saveWord lowerLatin candidate "id-1" 7 myList =
        (true, Stored [newWord; entry "Apple"]) /\
      id newWord = Some "id-1"%string /\ dateAdded newWord = Some 7%Z /\
      word newWord = "pear"%string) /\
  saveWord lowerLatin (entry "APPLE") "id-2" 8 myList = (false, myList).
Proof.
  cbv zeta. split.
  - destruct (saveWord_spec lowerLatin (stamped (entry "pear") "old-id" 1)
                "id-1" 7 (Stored [entry "Apple"])) as (_ & H & _).
    destruct H as (newWord & E & _ & Hid & Hdate & Hword & _).
    + intros (w' & [<- | []] & H). discriminate H.
    + exists newWord. now repeat split.
  - apply (saveWord_spec lowerLatin (entry "APPLE") "id-2" 8
             (Stored [entry "Apple"])).
    exists (entry "Apple"). split; [now left | reflexivity].
Defined.

End StorageFacts.

Module StorageOpsFacts.
Import Storage StorageOps.

Lemma sameId_eq a b : sameId a b = true <-> a = b.
Proof.
  destruct a as [x|], b as [y|]; simpl; split; intros H;
    try discriminate; try reflexivity.
  - apply String.eqb_eq in H. now subst.
  - injection H as ->. apply String.eqb_refl.
Qed.

Lemma sameId_neq a b : negb (sameId a b) = true <-> a <> b.
Proof.
  rewrite negb_true_iff. split.
  - intros H E. apply sameId_eq in E. congruence.
  - intros H. destruct (sameId a b) eqn:E; [|reflexivity].
    apply sameId_eq in E. contradiction.
Qed.

Lemma filter_unchanged {A : Type} (p : A -> bool) (l : list A) :
  (forall x, In x l -> p x = true) -> filter p l = l.
Proof.
  induction l as [|x l IH]; intros H; simpl; [reflexivity|].
  rewrite (H x (or_introl eq_refl)). f_equal. apply IH.
  intros y Hy. apply H. now right.
Qed.

Lemma filter_twice {A : Type} (p : A -> bool) (l : list A) :
  filter p (filter p l) = filter p l.
Proof.
  apply filter_unchanged. intros x Hx. now apply filter_In in Hx.
Qed.

(** X1.  After [removeWord] the stored words are those that were
    stored and do not carry the id; a word without id always stays.
    With no stored word of that id the list is read back as it was, and
    removing the same id again changes nothing. *)
Theorem removeWord_spec (wordId : string) (myList : item) :
  let before := getSavedWords myList in
  let after := getSavedWords (removeWord wordId myList) in
  (forall w, In w after <-> In w before /\ id w <> Some wordId) /\
  (length after <= length before)%nat /\
  (~ In (Some wordId) (ids before) -> after = before) /\
  removeWord wordId (removeWord wordId myList) = removeWord wordId myList.
Proof.
  cbn zeta. unfold removeWord. cbn [getSavedWords].
  split; [|split; [|split]].
  - intros w. rewrite filter_In, sameId_neq. reflexivity.
  - apply filter_length_le.
  - intros H. apply filter_unchanged. intros w Hw. apply sameId_neq.
    intros E. apply H. unfold ids. rewrite <- E. now apply in_map.
  - now rewrite filter_twice.
Qed.

(** Removing an id none of five stored words carries. *)
Lemma removeWord_spec_witness :
  getSavedWords (removeWord "id-9" (Stored App.fiveWords)) = App.fiveWords.
Proof.
  destruct (removeWord_spec "id-9" (Stored App.fiveWords)) as (_ & _ & H & _).
  apply H. cbn. intros [E|[E|[E|[E|[E|[]]]]]]; discriminate.
Defined.

Section Words.

Variable toLowerCase : string -> string.

(** X2.  Saving a word that is not yet known under an id that is not
    in use, then removing that id, gives back the list that was
    stored. *)
Theorem saveWord_removeWord (w : WordData) (uuid : string) (now : Z)
    (myList : item) :
  let words := getSavedWords myList in
  ~ known toLowerCase w words ->
  ~ In (Some uuid) (ids words) ->
  getSavedWords
    (removeWord uuid (snd (saveWord toLowerCase w uuid now myList))) = words.
Proof.
  cbn zeta. intros Hnew Hfresh.
  destruct (StorageFacts.known_existsb toLowerCase w (getSavedWords myList))
    as [K _].
  unfold saveWord.
  destruct (existsb _ (getSavedWords myList)) eqn:E.
  - exfalso. apply Hnew. now apply K.
  - cbn [negb snd]. unfold removeWord. cbn [getSavedWords].
    simpl filter. rewrite String.eqb_refl. cbn [negb].
    apply filter_unchanged. intros w' Hw'. apply sameId_neq.
    intros E'. apply Hfresh. unfold ids. rewrite <- E'. now apply in_map.
Qed.

End Words.

Lemma saveWord_removeWord_witness :
  getSavedWords
    (removeWord "id-1"
       (snd (saveWord lowerLatin (entry "pear") "id-1" 7
               (Stored [stamped (entry "Apple") "id-0" 3])))) =
  [stamped (entry "Apple") "id-0" 3].
Proof.
  apply (saveWord_removeWord lowerLatin (entry "pear") "id-1"%string 7
           (Stored [stamped (entry "Apple") "id-0" 3])).
  - intros (w' & [<- | []] & H). discriminate H.
  - intros [H | []]. discriminate H.
Defined.

(** *** [updateWord] *)

(** Where the first word of a given id stands in a list, if any. *)
Lemma first_of_id (target : option string) (l : list WordData) :
  (exists pre old post,
      l = pre ++ old :: post /\ id old = target /\
      forall w, In w pre -> id w <> target) \/
  (forall w, In w l -> id w <> target).
Proof.
  induction l as [|y l IH].
  - right. intros w [].
  - destruct (sameId (id y) target) eqn:Ey.
    + left. exists [], y, l. split; [reflexivity|].
      split; [now apply sameId_eq | intros w []].
    + assert (Hy : id y <> target).
      { intros E. apply sameId_eq in E. congruence. }
      destruct IH as [(pre & old & post & -> & Hold & Hpre) | Hnone].
      * left. exists (y :: pre), old, post. split; [reflexivity|].
        split; [exact Hold|]. intros w [<- | Hw]; auto.
      * right. intros w [<- | Hw]; auto.
Qed.

Lemma findIndex_hit (target : option string) (pre post : list WordData)
    (old : WordData) :
  id old = target -> (forall w, In w pre -> id w <> target) ->
  findIndex (fun w => sameId (id w) target) (pre ++ old :: post) =
    Some (length pre).
Proof.
  intros Hold Hpre. induction pre as [|y pre IH]; cbn [app findIndex length].
  - replace (sameId (id old) target) with true; [reflexivity|].
    symmetry. now apply sameId_eq.
  - destruct (sameId (id y) target) eqn:Ey.
    + apply sameId_eq in Ey. exfalso. apply (Hpre y); [now left | exact Ey].
    + rewrite IH; [reflexivity|]. intros w Hw. apply Hpre. now right.
Qed.

Lemma findIndex_miss (target : option string) (l : list WordData) :
  (forall w, In w l -> id w <> target) ->
  findIndex (fun w => sameId (id w) target) l = None.
Proof.
  induction l as [|y l IH]; intros H; cbn [findIndex]; [reflexivity|].
  destruct (sameId (id y) target) eqn:Ey.
  - apply sameId_eq in Ey. exfalso. apply (H y); [now left | exact Ey].
  - rewrite IH; [reflexivity|]. intros w Hw. apply H. now right.
Qed.

Lemma setAt_middle {A : Type} (pre post : list A) (old x : A) :
  setAt (length pre) x (pre ++ old :: post) = pre ++ x :: post.
Proof.
  induction pre as [|y pre IH]; simpl; [reflexivity|]. now rewrite IH.
Qed.

Lemma updateWord_hit w myList pre old post :
  getSavedWords myList = pre ++ old :: post ->
  id old = id w -> (forall x, In x pre -> id x <> id w) ->
  updateWord w myList = Stored (pre ++ w :: post).
Proof.
  intros E Hold Hpre. unfold updateWord.
  rewrite E, (findIndex_hit (id w) pre post old Hold Hpre).
  now rewrite setAt_middle.
Qed.

Lemma updateWord_miss w myList :
  (forall x, In x (getSavedWords myList) -> id x <> id w) ->
  updateWord w myList = myList.
Proof.
  intros H. unfold updateWord. now rewrite (findIndex_miss (id w) _ H).
Qed.

(** X3.  [updateWord] replaces the first stored word whose id equals
    the id of the word given (two absent ids count as equal) and leaves
    every other word where it was, so the list keeps its length and its
    ids, position by position; when no stored word has that id the item
    is not written at all. *)
Theorem updateWord_spec (updatedWord : WordData) (myList : item) :
  let before := getSavedWords myList in
  let after := getSavedWords (updateWord updatedWord myList) in
  ids after = ids before /\
  length after = length before /\
  ((exists pre old post,
       before = pre ++ old :: post /\ id old = id updatedWord /\
       (forall w, In w pre -> id w <> id updatedWord) /\
       after = pre ++ updatedWord :: post) \/
   ((forall w, In w before -> id w <> id updatedWord) /\
    updateWord updatedWord myList = myList)).
Proof.
  cbn zeta.
  destruct (first_of_id (id updatedWord) (getSavedWords myList))
    as [(pre & old & post & E & Hold & Hpre) | Hnone].
  - rewrite (updateWord_hit updatedWord myList pre old post E Hold Hpre).
    cbn [getSavedWords]. rewrite E. split; [|split].
    + unfold ids. rewrite !map_app. cbn [map]. now rewrite Hold.
    + rewrite !length_app. reflexivity.
    + left. exists pre, old, post. repeat split; auto.
  - rewrite (updateWord_miss updatedWord myList Hnone).
    split; [reflexivity|]. split; [reflexivity|]. right. now split.
Qed.

(** A custom sentence is attached to the second of five stored words. *)
Lemma updateWord_spec_witness :
  let updated := stamped (entry "pear") "id-2" 2 in
  ids (getSavedWords (updateWord updated (Stored App.fiveWords))) =
    ids App.fiveWords /\
  length (getSavedWords (updateWord updated (Stored App.fiveWords))) = 5%nat.
Proof.
  destruct (updateWord_spec (stamped (entry "pear") "id-2" 2)
              (Stored App.fiveWords)) as (H1 & H2 & _).
  split; [exact H1 | exact H2].
Defined.

(** *** Sequences of operations *)

(** Dropping words keeps their keys distinct, whatever the key. *)
Lemma distinct_after_filter {K : Type} (key : WordData -> K)
    (keep : WordData -> bool) :
  forall ws, NoDup (map key ws) -> NoDup (map key (filter keep ws)).
Proof.
  intros ws. induction ws as [|w ws IH]; cbn [map filter]; intros Hnd.
  - constructor.
  - apply NoDup_cons_iff in Hnd. destruct Hnd as [Hw Hws].
    destruct (keep w); cbn [map]; [|now apply IH].
    apply NoDup_cons_iff. split; [|now apply IH].
    intros Hin. apply Hw. apply in_map_iff in Hin.
    destruct Hin as (y & Ey & Hy). apply filter_In in Hy.
    rewrite <- Ey. apply in_map. tauto.
Qed.

Lemma keyed_removeWord wordId myList :
  keyed (getSavedWords myList) ->
  keyed (getSavedWords (removeWord wordId myList)).
Proof.
  intros [Hid Hnd]. unfold removeWord. cbn [getSavedWords]. split.
  - apply Forall_forall. intros w Hw. apply filter_In in Hw.
    destruct Hw as [Hw _]. revert w Hw. now apply Forall_forall.
  - now apply distinct_after_filter.
Qed.

Lemma keyed_updateWord w myList :
  keyed (getSavedWords myList) ->
  keyed (getSavedWords (updateWord w myList)).
Proof.
  intros [Hid Hnd].
  destruct (first_of_id (id w) (getSavedWords myList))
    as [(pre & old & post & E & Hold & Hpre) | Hnone].
  - rewrite (updateWord_hit w myList pre old post E Hold Hpre).
    cbn [getSavedWords]. rewrite E in Hid, Hnd. split.
    + apply Forall_app in Hid. destruct Hid as [Hp Hpost].
      inversion_clear Hpost as [|? ? Ho Hrest].
      apply Forall_app. split; [exact Hp|].
      constructor; [now rewrite <- Hold | exact Hrest].
    + unfold ids in *. rewrite map_app in *. cbn [map] in *.
      now rewrite <- Hold.
  - rewrite (updateWord_miss w myList Hnone). now split.
Qed.

Section Words.

Variable toLowerCase : string -> string.

Lemma keyed_saveWord w uuid now myList :
  keyed (getSavedWords myList) ->
  ~ In (Some uuid) (ids (getSavedWords myList)) ->
  keyed (getSavedWords (snd (saveWord toLowerCase w uuid now myList))).
Proof.
  intros [Hid Hnd] Hfresh. unfold saveWord.
  destruct (existsb _ (getSavedWords myList)); cbn [negb snd];
    [now split|].
  cbn [getSavedWords]. split.
  - constructor; [discriminate | exact Hid].
  - unfold ids. cbn [map]. now constructor.
Qed.

Lemma spellings_saveWord w uuid now myList :
  NoDup (spellings toLowerCase (getSavedWords myList)) ->
  NoDup (spellings toLowerCase
           (getSavedWords (snd (saveWord toLowerCase w uuid now myList)))).
Proof.
  intros Hnd. unfold saveWord.
  destruct (existsb _ (getSavedWords myList)) eqn:E; cbn [negb snd];
    [exact Hnd|].
  cbn [getSavedWords]. unfold spellings. cbn [map stamped word].
  constructor; [|exact Hnd].
  intros Hin. apply in_map_iff in Hin. destruct Hin as (w' & Ew' & Hw').
  assert (K : existsb
                (fun w' => String.eqb (toLowerCase (word w'))
                                      (toLowerCase (word w)))
                (getSavedWords myList) = true).
  { apply existsb_exists. exists w'. split; [exact Hw'|].
    now apply String.eqb_eq. }
  congruence.
Qed.

Lemma spellings_updateWord w myList :
  admissible toLowerCase (Update w) myList ->
  spellings toLowerCase (getSavedWords (updateWord w myList)) =
  spellings toLowerCase (getSavedWords myList).
Proof.
  intros Hadm.
  destruct (first_of_id (id w) (getSavedWords myList))
    as [(pre & old & post & E & Hold & Hpre) | Hnone].
  - rewrite (updateWord_hit w myList pre old post E Hold Hpre).
    cbn [getSavedWords]. rewrite E. unfold spellings.
    rewrite !map_app. cbn [map].
    rewrite (Hadm old); [reflexivity | | exact Hold].
    rewrite E. apply in_or_app. right. now left.
  - now rewrite (updateWord_miss w myList Hnone).
Qed.

(** X4.  Starting from a list in which every word has an id, no id
    occurs twice and no two words are spelled alike up to case, any
    sequence of [saveWord], [removeWord] and [updateWord] calls keeps it
    so, provided every id handed to [saveWord] is not in use and every
    [updateWord] keeps the spelling of the word it replaces. *)
Theorem store_invariant (ops : list (operation)) :
  forall myList,
    keyed (getSavedWords myList) ->
    NoDup (spellings toLowerCase (getSavedWords myList)) ->
    admissibleAll toLowerCase ops myList ->
    keyed (getSavedWords (applyAll toLowerCase ops myList)) /\
    NoDup (spellings toLowerCase
             (getSavedWords (applyAll toLowerCase ops myList))).
Proof.
  induction ops as [|op ops IH]; intros myList Hk Hs Hadm.
  - now split.
  - destruct Hadm as [Hop Hrest]. cbn [applyAll].
    apply IH; [| |exact Hrest]; destruct op as [w uuid now | wordId | w];
      cbn [apply].
    + now apply keyed_saveWord.
    + now apply keyed_removeWord.
    + now apply keyed_updateWord.
    + now apply spellings_saveWord.
    + unfold removeWord. cbn [getSavedWords]. now apply distinct_after_filter.
    + now rewrite spellings_updateWord.
Qed.

End Words.

Lemma store_invariant_witness :
  let ops := [Save (entry "pear") "id-1" 7;
              Update (stamped (entry "Pear") "id-1" 9);
              Remove "id-0";
              Save (entry "PEAR") "id-2" 11] in
  let myList := Stored [stamped (entry "Apple") "id-0" 3] in
  keyed (getSavedWords (applyAll lowerLatin ops myList)) /\
  NoDup (spellings lowerLatin (getSavedWords (applyAll lowerLatin ops myList))).
Proof.
  apply (store_invariant lowerLatin).
  - split; [repeat constructor; discriminate|].
    repeat constructor. intros [].
  - repeat constructor. intros [].
  - cbn. repeat split.
    + intros [H | []]. discriminate H.
    + intros w' [<- | [<- | []]]; intros H; [reflexivity | discriminate H].
    + intros [H | []]. discriminate H.
Defined.

End StorageOpsFacts.

Module AppFacts.
Import JS JSText Storage StorageOps App.
Import StorageOpsFacts.

Section Words.

Variable toLowerCase : string -> string.

(** X5.  Once the list on screen equals the stored list, it still does
    after any sequence of save, remove and custom-sentence clicks and
    view changes; none of them touches the stored daily task. *)
Theorem list_mirrors_store (es : list listEvent) :
  forall st,
    myList st = getSavedWords (MY_LIST (storage st)) ->
    let st' := onListAll toLowerCase es st in
    myList st' = getSavedWords (MY_LIST (storage st')) /\
    DAILY_TASK (storage st') = DAILY_TASK (storage st).
Proof.
  induction es as [|e es IH]; intros st Hm; cbn zeta.
  - now split.
  - cbn [onListAll].
    assert (H : myList (fst (onList toLowerCase e st)) =
                getSavedWords (MY_LIST (storage (fst (onList toLowerCase e st))))
                /\ DAILY_TASK (storage (fst (onList toLowerCase e st))) =
                   DAILY_TASK (storage st)).
    { destruct e as [w uuid now | w | w |]; cbn [onList].
      - unfold saveToMyList.
        destruct (saveWord toLowerCase w uuid now (MY_LIST (storage st)))
          as [[|] i]; cbn [fst]; [now split | now split].
      - unfold removeFromMyList.
        destruct (id w) as [[|c wordId]|]; cbn [fst]; now split.
      - now split.
      - now split. }
    destruct H as [H1 H2].
    destruct (IH _ H1) as [H3 H4]. cbn zeta in H3, H4.
    split; [exact H3 | now rewrite H4].
Qed.

(** X6.  With the list on screen equal to the stored list, a card is
    marked as saved exactly when [saveWord] would refuse the word as a
    duplicate. *)
Theorem isSaved_iff_refused (w : WordData) (uuid : string) (now : Z)
    (st : state) :
  myList st = getSavedWords (MY_LIST (storage st)) ->
  isSaved toLowerCase w st =
    negb (fst (saveWord toLowerCase w uuid now (MY_LIST (storage st)))).
Proof.
  intros Hm. unfold isSaved, saveWord. rewrite Hm.
  now destruct (existsb _ (getSavedWords (MY_LIST (storage st)))).
Qed.

End Words.

(** Five stored words; a new word is saved, a stored one is saved
    again in capitals, one is removed and the view changes. *)
Lemma list_mirrors_store_witness :
  let es := [SaveClicked (entry "kiwi") "id-6" 6;
             SaveClicked (entry "APPLE") "id-7" 7;
             RemoveClicked (stamped (entry "pear") "id-2" 2);
             ViewChanged] in
  let st' := onListAll lowerLatin es (mounted fiveWords) in
  myList st' = getSavedWords (MY_LIST (storage st')) /\
  DAILY_TASK (storage st') = DAILY_TASK (storage (mounted fiveWords)).
Proof.
  apply (list_mirrors_store lowerLatin
           [SaveClicked (entry "kiwi") "id-6" 6;
            SaveClicked (entry "APPLE") "id-7" 7;
            RemoveClicked (stamped (entry "pear") "id-2" 2);
            ViewChanged]
           (mounted fiveWords)).
  reflexivity.
Defined.

(** A stored word in other capitals is shown as saved. *)
Lemma isSaved_iff_refused_witness :
  isSaved lowerLatin (entry "Plum") (mounted fiveWords) =
    negb (fst (saveWord lowerLatin (entry "Plum") "id-6" 6
                 (MY_LIST (storage (mounted fiveWords))))).
Proof.
  apply (isSaved_iff_refused lowerLatin (entry "Plum") "id-6" 6
           (mounted fiveWords)).
  reflexivity.
Defined.

(** *** The daily list *)

(** X7.  When the daily words arrive, the task dated with the day of
    the click is both stored and shown, the loading flag is cleared and
    the word list is not touched; a further click on the same day then
    asks for nothing and changes nothing.  When the call fails, only
    the error and the loading flag change. *)
Theorem daily_generation (today : string) (ws : list WordData) (st : state) :
  let done := fst (dailyWordsSettled today (Some ws) st) in
  let failed := fst (dailyWordsSettled today None st) in
  dailyTask done = Some {| date := today; words := ws |} /\
  getDailyTask (DAILY_TASK (storage done)) = dailyTask done /\
  loading done = false /\
  MY_LIST (storage done) = MY_LIST (storage st) /\
  handleGenerateDaily today done = (done, []) /\
  failed = withLoading false
             (withError (Some "Failed to generate daily words."%string) st).
Proof.
  cbn zeta. repeat split.
  unfold handleGenerateDaily. cbn. now rewrite String.eqb_refl.
Qed.

(** *** The news article *)

(** X8.  With fewer than five words in the list [handleGenerateNews]
    asks for nothing and only sets the error.  Otherwise it asks for
    one article, for [min 10 (length myList)] words, each of them the
    spelling of a word of the list, whatever order the shuffle left. *)
Theorem news_selection (shuffled : list WordData) (st : state) :
  Permutation shuffled (myList st) ->
  ((length (myList st) < 5)%nat ->
   handleGenerateNews shuffled st =
     (withError
        (Some "Please add at least 5 words to your list to generate news."%string)
        st, [])) /\
  ((5 <= length (myList st))%nat ->
   exists selected,
     snd (handleGenerateNews shuffled st) = [GenerateNewsArticle selected] /\
     length selected = Nat.min 10 (length (myList st)) /\
     (forall s, In s selected -> exists w, In w (myList st) /\ word w = s) /\
     loading (fst (handleGenerateNews shuffled st)) = true /\
     error (fst (handleGenerateNews shuffled st)) = None).
Proof.
  intros Hperm. unfold handleGenerateNews. split; intros Hlen.
  - apply Nat.ltb_lt in Hlen. now rewrite Hlen.
  - apply Nat.ltb_ge in Hlen. rewrite Hlen. cbn [fst snd].
    exists (map word (firstn 10 shuffled)). split; [reflexivity|].
    split; [|split; [|now split]].
    + rewrite length_map, length_firstn.
      now rewrite (Permutation_length Hperm).
    + intros s Hs. apply in_map_iff in Hs. destruct Hs as (w & <- & Hw).
      exists w. split; [|reflexivity].
      apply (Permutation_in w Hperm).
      rewrite <- (firstn_skipn 10 shuffled). apply in_or_app. now left.
Qed.

Lemma news_selection_witness :
  exists selected,
    snd (handleGenerateNews (rev fiveWords) (mounted fiveWords)) =
      [GenerateNewsArticle selected] /\
    length selected = 5%nat.
Proof.
  destruct (news_selection (rev fiveWords) (mounted fiveWords))
    as [_ H].
  - symmetry. apply Permutation_rev.
  - destruct H as (selected & H1 & H2 & _); [cbn; lia|].
    exists selected. split; [exact H1 | exact H2].
Defined.

(** *** Lookup and suggestions *)

Lemma trimStart_nil s :
  trimStart s = [] <-> Forall (fun c => isWhiteSpace c = true) s.
Proof.
  induction s as [|c s IH]; cbn [trimStart].
  - split; [constructor | reflexivity].
  - destruct (isWhiteSpace c) eqn:E.
    + rewrite IH. split; intros H; [now constructor | now inversion H].
    + split; [discriminate|]. intros H. inversion H. congruence.
Qed.

Lemma trimStart_suffix s : exists pre, s = pre ++ trimStart s /\
  Forall (fun c => isWhiteSpace c = true) pre.
Proof.
  induction s as [|c s IH]; cbn [trimStart].
  - exists []. now split.
  - destruct (isWhiteSpace c) eqn:E.
    + destruct IH as (pre & Hs & Hpre). exists (c :: pre). split.
      * cbn [app]. now rewrite <- Hs.
      * now constructor.
    + exists []. now split.
Qed.

(** A string is blank for [trim] exactly when it holds white space
    only. *)
Lemma blank_spec s :
  blank s = true <-> Forall (fun c => isWhiteSpace c = true) s.
Proof.
  unfold blank, trim.
  destruct (trimStart_suffix s) as (pre & Hs & Hpre).
  split.
  - intros H.
    destruct (rev (trimStart (rev (trimStart s)))) as [|c r] eqn:E;
      [|discriminate].
    apply (f_equal (@rev N)) in E. rewrite rev_involutive in E. cbn in E.
    apply trimStart_nil in E.
    rewrite Hs. apply Forall_app. split; [exact Hpre|].
    apply Forall_rev in E. now rewrite rev_involutive in E.
  - intros H. apply trimStart_nil in H. rewrite H. reflexivity.
Qed.

(** X9.  A lookup of a query made of white space only (or of no
    character) asks for nothing and changes nothing.  Any other query
    is sent once, exactly as typed, with the dropdown hidden, the error
    cleared and the loading flag set; when the answer or the failure
    arrives the loading flag is cleared, and a failure keeps the last
    result on screen. *)
Theorem lookup_cycle (queryOverride : option jsstring) (st : state) :
  let query := orElse queryOverride (lookupQuery st) in
  (Forall (fun c => isWhiteSpace c = true) query ->
   handleLookup queryOverride st = (st, [])) /\
  (~ Forall (fun c => isWhiteSpace c = true) query ->
   let asked := fst (handleLookup queryOverride st) in
   snd (handleLookup queryOverride st) = [LookupWord query] /\
   loading asked = true /\ error asked = None /\ dropdown asked = [] /\
   (forall data,
       loading (fst (lookupSettled (Some data) asked)) = false /\
       lookupResult (fst (lookupSettled (Some data) asked)) = Some data /\
       error (fst (lookupSettled (Some data) asked)) = None) /\
   loading (fst (lookupSettled None asked)) = false /\
   lookupResult (fst (lookupSettled None asked)) = lookupResult st /\
   error (fst (lookupSettled None asked)) =
     Some "Failed to look up word. Please try again."%string).
Proof.
  cbn zeta. unfold handleLookup, handleLookupFrom.
  pose proof (blank_spec (orElse queryOverride (lookupQuery st))) as B.
  destruct (blank (orElse queryOverride (lookupQuery st))).
  - split; [reflexivity|]. intros H. exfalso. apply H. now apply B.
  - split.
    + intros H. apply B in H. discriminate.
    + intros _. cbn. repeat split.
Qed.

Lemma lookup_cycle_witness :
  handleLookup None (withQuery (lit "  ") (mounted [])) =
    (withQuery (lit "  ") (mounted []), []) /\
  snd (handleLookup None (withQuery (lit " ubiquitous ") (mounted []))) =
    [LookupWord (lit " ubiquitous ")].
Proof.
  split.
  - apply (lookup_cycle None (withQuery (lit "  ") (mounted []))).
    repeat constructor.
  - apply (lookup_cycle None (withQuery (lit " ubiquitous ") (mounted []))).
    intros H. inversion H as [|? ? _ H']. inversion H' as [|? ? Hu _].
    discriminate Hu.
Defined.

(** X10.  A click on a suggestion looks up the suggestion itself, not
    the text still in the field, puts the suggestion in the field and
    hides the dropdown. *)
Theorem suggestion_click (suggestion : jsstring) (st : state) :
  ~ Forall (fun c => isWhiteSpace c = true) suggestion ->
  let st' := fst (handleSuggestionClick suggestion st) in
  snd (handleSuggestionClick suggestion st) = [LookupWord suggestion] /\
  lookupQuery st' = suggestion /\ dropdown st' = [] /\ loading st' = true.
Proof.
  intros Hs. cbn zeta. unfold handleSuggestionClick, handleLookupFrom.
  assert (E : orElse (Some suggestion) (lookupQuery st) = suggestion).
  { destruct suggestion; [|reflexivity]. exfalso. apply Hs. constructor. }
  rewrite E.
  pose proof (blank_spec suggestion) as B.
  destruct (blank suggestion); [exfalso; apply Hs; now apply B|].
  cbn. repeat split.
Qed.

Lemma suggestion_click_witness :
  snd (handleSuggestionClick (lit "pear") (withQuery (lit "pe") (mounted []))) =
    [LookupWord (lit "pear")].
Proof.
  apply (suggestion_click (lit "pear") (withQuery (lit "pe") (mounted []))).
  intros H. inversion H as [|? ? Hp _]. discriminate Hp.
Defined.

(** X11.  The dropdown never lists more than five suggestions: after
    the suggestions effect it shows the first five words of the
    response, in order, and nothing at all when the trimmed query is
    shorter than two characters. *)
Theorem suggestions_capped (seenQuery : jsstring)
    (fetched : option (list jsstring)) (st : state) :
  (length (suggestions st) <= 5)%nat ->
  let st' := fst (fetchSuggestions seenQuery fetched st) in
  (length (suggestions st') <= 5)%nat /\
  ((length (trim seenQuery) <= 1)%nat -> dropdown st' = []) /\
  (forall words,
      fetched = Some words -> (1 < length (trim seenQuery))%nat ->
      dropdown st' = firstn 5 words /\
      exists rest, words = dropdown st' ++ rest).
Proof.
  intros Hcap. cbn zeta. unfold fetchSuggestions.
  destruct (Nat.ltb_spec 1 (length (trim seenQuery))) as [Hlong|Hshort].
  - destruct fetched as [words|]; cbn [fst].
    + split; [apply firstn_le_length|]. split; [lia|].
      intros ws E _. injection E as <-. split; [reflexivity|].
      exists (skipn 5 words).
      change (words = firstn 5 words ++ skipn 5 words).
      symmetry. apply firstn_skipn.
    + split; [exact Hcap|]. split; [lia|]. discriminate.
  - cbn [fst]. split; [cbn; lia|]. split; [reflexivity|]. intros; lia.
Qed.

Lemma suggestions_capped_witness :
  dropdown
    (fst (fetchSuggestions (lit " pe")
            (Some [lit "pea"; lit "pear"; lit "peach"; lit "peak"; lit "peal";
                   lit "pearl"; lit "peat"])
            (mounted []))) =
  [lit "pea"; lit "pear"; lit "peach"; lit "peak"; lit "peal"].
Proof.
  destruct (suggestions_capped (lit " pe")
              (Some [lit "pea"; lit "pear"; lit "peach"; lit "peak";
                     lit "peal"; lit "pearl"; lit "peat"])
              (mounted []))
    as (_ & _ & H); [cbn; lia|].
  destruct (H _ eq_refl) as [E _]; [cbn; lia | exact E].
Defined.

End AppFacts.

Module CodecFacts.
Import JS Base64 Audio.
Import PCMFacts.

Lemma clamp_monotone x y : x <= y -> clamp x <= clamp y.
Proof.
  intros H. unfold clamp.
  destruct (Math_min_spec 1 x) as [[H1 ->] | [H1 ->]];
    destruct (Math_min_spec 1 y) as [[H2 ->] | [H2 ->]];
    destruct (Math_max_spec (-1) 1) as [[H3 E] | [H3 E]];
    destruct (Math_max_spec (-1) x) as [[H4 E1] | [H4 E1]];
    destruct (Math_max_spec (-1) y) as [[H5 E2] | [H5 E2]];
    try rewrite E; try rewrite E1; try rewrite E2; lra.
Qed.

Lemma scaled_monotone s t : s <= t -> scaled s <= scaled t.
Proof.
  intros H. unfold scaled.
  destruct (ltb_spec s 0) as [[Hs ->] | [Hs ->]];
    destruct (ltb_spec t 0) as [[Ht ->] | [Ht ->]]; lra.
Qed.

Lemma truncate_monotone p q : p <= q -> (truncate p <= truncate q)%Z.
Proof.
  intros H.
  destruct (Qlt_le_dec q 0) as [Hq | Hq];
    [|destruct (Qlt_le_dec p 0) as [Hp | Hp]].
  - destruct (truncate_nonpos p) as [_ P]; [lra|].
    destruct (truncate_nonpos q) as [Q' _]; [lra|].
    assert (G : (truncate p < truncate q + 1)%Z); [|lia].
    rewrite Zlt_Qlt, inject_Z_plus. change (inject_Z 1) with 1. lra.
  - destruct (truncate_nonpos p) as [_ P]; [lra|].
    destruct (truncate_nonneg q) as [_ Q']; [exact Hq|].
    assert (G1 : (truncate p < 1)%Z).
    { rewrite Zlt_Qlt. change (inject_Z 1) with 1. lra. }
    assert (G2 : (-1 < truncate q)%Z).
    { rewrite Zlt_Qlt. change (inject_Z (-1)) with (-1). lra. }
    lia.
  - destruct (truncate_nonneg p) as [P _]; [exact Hp|].
    destruct (truncate_nonneg q) as [_ Q']; [exact Hq|].
    assert (G : (truncate p < truncate q + 1)%Z); [|lia].
    rewrite Zlt_Qlt, inject_Z_plus. change (inject_Z 1) with 1. lra.
Qed.

(** X12.  The encoder preserves order: a sample that is not larger
    is never encoded to a larger integer; zero is encoded as zero. *)
Theorem pcmSample_monotone (x y : Q) :
  x <= y -> (pcmSample x <= pcmSample y)%Z /\ pcmSample 0 = 0%Z.
Proof.
  intros H. split; [|reflexivity].
  rewrite !pcmSample_truncate.
  apply truncate_monotone, scaled_monotone, clamp_monotone, H.
Qed.

Lemma pcmSample_monotone_witness :
  (pcmSample (1 # 3) <= pcmSample (1 # 2))%Z.
Proof.
  apply (pcmSample_monotone (1 # 3) (1 # 2)). vm_compute. discriminate.
Defined.

Lemma clamp_inside (v : Z) :
  (-32768 <= v <= 32767)%Z -> clamp (v # 32768) = v # 32768.
Proof.
  intros Hv. unfold clamp, Math_max, Math_min.
  replace (Qle_bool 1 (v # 32768)) with false.
  - replace (Qle_bool (-1) (v # 32768)) with true; [reflexivity|].
    symmetry. apply Qle_bool_iff. unfold Qle. simpl. lia.
  - symmetry. apply not_true_iff_false. intros E.
    apply Qle_bool_iff in E. unfold Qle in E. simpl in E. lia.
Qed.

(** X13.  Encoding what the decoder produced from a 16-bit value
    gives the value back when it is negative or zero, and one less when
    it is positive: the encoder scales positive samples by 32767, the
    decoder divides by 32768. *)
Theorem reencode_decoded (v : Z) :
  (-32768 <= v <= 32767)%Z ->
  pcmSample (v # 32768) = if (0 <? v)%Z then (v - 1)%Z else v.
Proof.
  intros Hv. rewrite pcmSample_truncate, (clamp_inside v Hv).
  unfold scaled, ltb.
  destruct (Z.ltb_spec 0 v) as [Hpos | Hneg].
  - replace (Qle_bool 0 (v # 32768)) with true
      by (symmetry; apply Qle_bool_iff; unfold Qle; simpl; lia).
    cbn [negb]. unfold truncate. simpl.
    rewrite Z.quot_div_nonneg by lia. use_euclid.
  - destruct (Z.eq_dec v 0) as [-> | Hnz]; [reflexivity|].
    replace (Qle_bool 0 (v # 32768)) with false.
    + cbn [negb]. unfold truncate. simpl. apply Z.quot_mul. lia.
    + symmetry. apply not_true_iff_false. intros E.
      apply Qle_bool_iff in E. unfold Qle in E. simpl in E. lia.
Qed.

Lemma reencode_decoded_witness :
  pcmSample (32767 # 32768) = 32766%Z /\ pcmSample (-32768 # 32768) = (-32768)%Z.
Proof.
  split.
  - apply (reencode_decoded 32767). lia.
  - apply (reencode_decoded (-32768)). lia.
Defined.

Lemma getInt16_range lo hi : (-32768 <= getInt16 lo hi <= 32767)%Z.
Proof.
  unfold getInt16.
  pose proof (Byte.to_N_bounded lo). pose proof (Byte.to_N_bounded hi).
  destruct (Z.leb_spec 32768
              (Z.of_N (Byte.to_N lo) + 256 * Z.of_N (Byte.to_N hi))); lia.
Qed.

Lemma list_ind2 {A : Type} (P : list A -> Prop) :
  P [] -> (forall a, P [a]) -> (forall a b l, P l -> P (a :: b :: l)) ->
  forall l, P l.
Proof.
  intros H0 H1 H2.
  assert (H : forall l, P l /\ forall a, P (a :: l)).
  { induction l as [|x l [IH0 IH1]]; split; auto. }
  intros l. apply H.
Qed.

Lemma decodePCM_cases (audioBytes : list byte) :
  match decodePCM audioBytes with
  | Some samples =>
      Nat.even (length audioBytes) = true /\
      (2 * length samples = length audioBytes)%nat /\
      Forall (fun x => -1 <= x /\ x < 1) samples
  | None => Nat.even (length audioBytes) = false
  end.
Proof.
  induction audioBytes as [| a | lo hi rest IH] using list_ind2.
  - repeat split. constructor.
  - reflexivity.
  - cbn [decodePCM]. destruct (decodePCM rest) as [samples|].
    + destruct IH as (He & Hl & Hr). cbn [length].
      split; [exact He|]. split; [lia|].
      constructor; [|exact Hr].
      pose proof (getInt16_range lo hi). unfold Qle, Qlt. simpl. lia.
    + exact IH.
Qed.

(** The conversion loop alone: it fails exactly on an odd length. *)
Lemma decodePCM_spec (audioBytes : list byte) :
  (decodePCM audioBytes = None <-> Nat.even (length audioBytes) = false) /\
  (forall samples,
      decodePCM audioBytes = Some samples ->
      (2 * length samples = length audioBytes)%nat /\
      Forall (fun x => -1 <= x /\ x < 1) samples).
Proof.
  pose proof (decodePCM_cases audioBytes) as H.
  destruct (decodePCM audioBytes) as [samples|].
  - destruct H as (He & Hl & Hr). split.
    + split; [discriminate | congruence].
    + intros s E. injection E as <-. now split.
  - split; [now split | discriminate].
Qed.



Lemma decodeChunk_inv base64Audio buffer :
  Community.decodeChunk base64Audio = Some buffer ->
  exists audioBytes samples,
    base64ToUint8Array base64Audio = Some audioBytes /\
    decodePCM audioBytes = Some samples /\
    (length audioBytes / 2 <> 0)%nat /\
    buffer = {| Community.numberOfFrames := (length audioBytes / 2)%nat;
                Community.bufferRate := OUTPUT_SAMPLE_RATE;
                Community.channelData := samples |}.
Proof.
  unfold Community.decodeChunk.
  destruct (base64ToUint8Array base64Audio) as [audioBytes|] eqn:Eb;
    [|discriminate].
  destruct (Nat.eqb_spec (length audioBytes / 2) 0) as [|Hf]; [discriminate|].
  destruct (decodePCM audioBytes) as [samples|] eqn:Ed; [|discriminate].
  intros E. injection E as <-. exists audioBytes, samples.
  repeat split; auto.
Qed.

Lemma decodeChunk_duration_pos base64Audio buffer :
  Community.decodeChunk base64Audio = Some buffer ->
  0 < Community.duration buffer.
Proof.
  intros E.
  destruct (decodeChunk_inv base64Audio buffer E)
    as (audioBytes & samples & _ & _ & Hf & ->).
  now apply SchedulerFacts.duration_pos.
Qed.

(** X15.  A buffer built by [playAudioChunk] is never empty, has the
    24000 Hz rate, holds exactly as many samples as its frame count
    says, all of them in [-1, 1), and lasts frames/24000 seconds. *)
Theorem decodeChunk_wellformed (base64Audio : jsstring)
    (buffer : Community.AudioBuffer) :
  Community.decodeChunk base64Audio = Some buffer ->
  (0 < Community.numberOfFrames buffer)%nat /\
  length (Community.channelData buffer) = Community.numberOfFrames buffer /\
  Community.bufferRate buffer = 24000%N /\
  Forall (fun x => -1 <= x /\ x < 1) (Community.channelData buffer) /\
  Community.duration buffer ==
    inject_Z (Z.of_nat (Community.numberOfFrames buffer)) * (1 # 24000).
Proof.
  intros E.
  destruct (decodeChunk_inv base64Audio buffer E)
    as (audioBytes & samples & _ & Hd & Hf & ->).
  pose proof (decodePCM_cases audioBytes) as H. rewrite Hd in H.
  destruct H as (_ & Hl & Hr).
  assert (Hn : (length audioBytes / 2 = length samples)%nat).
  { rewrite <- Hl, Nat.mul_comm. apply Nat.div_mul. lia. }
  rewrite Hn in *.
  cbn [Community.numberOfFrames Community.channelData Community.bufferRate].
  split; [lia|]. split; [reflexivity|].
  split; [reflexivity|]. split; [exact Hr|].
  unfold Community.duration, Qeq. simpl. lia.
Qed.

Lemma decodeChunk_wellformed_witness :
  exists buffer,
    Community.decodeChunk (lit "AAD/fwCA") = Some buffer /\
    Community.numberOfFrames buffer = 3%nat /\
    length (Community.channelData buffer) = 3%nat.
Proof.
  eexists. split; [reflexivity|]. split; [reflexivity|].
  apply (decodeChunk_wellformed (lit "AAD/fwCA")). reflexivity.
Defined.

(** *** The text of an encoded buffer *)

Lemma encode_length_formula bs :
  length (encode bs) = (4 * ((length bs + 2) / 3))%nat.
Proof.
  unfold encode. rewrite length_app, length_map.
  induction bs as [| a | a b | a b c l IH] using Base64Facts.list_ind3;
    try reflexivity.
  cbn [to_sextets padding length].
  replace (S (S (S (length l))) + 2)%nat with ((length l + 2) + 1 * 3)%nat
    by lia.
  rewrite Nat.div_add by lia. lia.
Qed.

(** X16.  [arrayBufferToBase64] never fails; a buffer of [n] bytes
    gives a text of [4 * ceil(n / 3)] characters, each a letter, a
    digit, ['+'], ['/'] or the padding ['=']. *)
Theorem arrayBufferToBase64_text (buffer : list byte) :
  exists text,
    arrayBufferToBase64 buffer = Some text /\
    length text = (4 * ((length buffer + 2) / 3))%nat /\
    Forall (fun c => char_sextet c <> None \/ c = 61%N) text.
Proof.
  exists (encode (map fromCharCode buffer)).
  split; [apply Base64Facts.arrayBufferToBase64_total|].
  split; [now rewrite encode_length_formula, length_map|].
  unfold encode. apply Forall_app. split.
  - pose proof (Base64Facts.to_sextets_bound _
                  (Base64Facts.fromCharCode_bound buffer)) as Hb.
    induction Hb as [|s ss Hs _ IH]; cbn [map]; constructor; [|exact IH].
    left. rewrite (Base64Facts.char_sextet_char s Hs). discriminate.
  - destruct (Base64Facts.padding_cases (map fromCharCode buffer))
      as [-> | [-> | ->]]; repeat constructor; now right.
Qed.

End CodecFacts.

Module CallMoreFacts.
Import JS Audio Community CallObservations.
Import SchedulerFacts.
Local Open Scope action_scope.

Lemma sourceStarts_app l1 l2 :
  sourceStarts (l1 ++ l2) = sourceStarts l1 ++ sourceStarts l2.
Proof.
  induction l1 as [|c l1 IH]; [reflexivity|].
  destruct c; cbn; now rewrite ?IH.
Qed.

Lemma sourceStarts_teardown st : sourceStarts (teardownCalls st) = [].
Proof.
  unfold teardownCalls. rewrite !sourceStarts_app.
  destruct (sessionPromiseRef st), (processorRef st), (inputSourceRef st),
    (audioContextRef st); cbn; rewrite ?app_nil_r;
    (destruct (streamRef st) as [[tracks]|]; [|reflexivity]);
    cbn; induction tracks; cbn; auto.
Qed.

Lemma onmessage_shape audioData currentTime st :
  onmessage audioData currentTime st = (st, []) \/
  exists buffer startTime,
    onmessage audioData currentTime st =
      (set_nextStartTimeRef (startTime + duration buffer) st,
       [SourceStart startTime buffer]).
Proof.
  destruct audioData as [[|c rest]|]; [now left | | now left].
  cbn [onmessage]. unfold whenSet.
  destruct (audioContextRef st) as [ctx|] eqn:Ectx; [|now left].
  destruct (playAudioChunk_step (c :: rest) currentTime st)
    as [-> | (buffer & -> & _)]; [now left|].
  right. now exists buffer, (Math_max currentTime (nextStartTimeRef st)).
Qed.

(** X17.  What a server message does, case by case.  It is ignored,
    changing nothing and calling nothing, when it carries no audio,
    when the audio text is empty, when there is no audio context and
    when the chunk does not decode to a buffer.  In every other case
    exactly one source is started, at [max(currentTime, cursor)], the
    cursor moves to the end of that source, which is strictly later,
    and nothing else changes. *)
Theorem onmessage_effect (audioData : option jsstring) (currentTime : Q)
    (st : state) :
  (audioData = None \/ audioData = Some [] \/ audioContextRef st = None \/
   (exists base64Audio,
       audioData = Some base64Audio /\ decodeChunk base64Audio = None) ->
   onmessage audioData currentTime st = (st, [])) /\
  (forall base64Audio buffer,
      audioData = Some base64Audio ->
      audioContextRef st <> None ->
      decodeChunk base64Audio = Some buffer ->
      let startTime := Math_max currentTime (nextStartTimeRef st) in
      onmessage audioData currentTime st =
        (set_nextStartTimeRef (startTime + duration buffer) st,
         [SourceStart startTime buffer]) /\
      nextStartTimeRef st < startTime + duration buffer).
Proof.
  assert (G : forall base64Audio,
             audioData = Some base64Audio -> base64Audio <> [] ->
             audioContextRef st <> None ->
             onmessage audioData currentTime st =
               match decodeChunk base64Audio with
               | None => (st, [])
               | Some buffer =>
                   (set_nextStartTimeRef
                      (Math_max currentTime (nextStartTimeRef st)
                       + duration buffer) st,
                    [SourceStart (Math_max currentTime (nextStartTimeRef st))
                       buffer])
               end).
  { intros [|c rest] -> Hne Hctx; [congruence|].
    cbn [onmessage]. unfold whenSet.
    destruct (audioContextRef st) as [ctx|] eqn:Ectx; [|congruence].
    cbv beta iota.
    apply (playAudioChunk_decodeChunk (c :: rest) currentTime st).
    congruence. }
  split.
  - intros [-> | [-> | [Hctx | (base64Audio & -> & Hd)]]];
      [reflexivity | reflexivity | |].
    + destruct audioData as [[|c rest]|]; try reflexivity.
      cbn [onmessage]. unfold whenSet. now rewrite Hctx.
    + destruct base64Audio as [|c rest]; [reflexivity|].
      destruct (audioContextRef st) as [ctx|] eqn:Ectx.
      * rewrite (G (c :: rest) eq_refl); [now rewrite Hd | discriminate |].
        congruence.
      * cbn [onmessage]. unfold whenSet. now rewrite Ectx.
  - intros base64Audio buffer -> Hctx Hd. cbn zeta.
    assert (Hne : base64Audio <> []).
    { intros ->. vm_compute in Hd. discriminate Hd. }
    rewrite (G base64Audio eq_refl Hne Hctx), Hd.
    split; [reflexivity|].
    pose proof (proj2 (Math_max_ge currentTime (nextStartTimeRef st))) as Hge.
    pose proof (CodecFacts.decodeChunk_duration_pos base64Audio buffer Hd).
    lra.
Qed.

(** On a live call a chunk of two silent samples is started at the
    clock reading; white space instead of audio is ignored. *)
Lemma onmessage_effect_witness :
  let buffer := {| numberOfFrames := 2; bufferRate := OUTPUT_SAMPLE_RATE;
                   channelData := [0 # 32768; 0 # 32768] |} in
  onmessage (Some (lit "AAAAAA==")) 3 liveCall =
    (set_nextStartTimeRef
       (Math_max 3 (nextStartTimeRef liveCall) + duration buffer) liveCall,
     [SourceStart (Math_max 3 (nextStartTimeRef liveCall)) buffer]) /\
  onmessage (Some (lit " ")) 3 liveCall = (liveCall, []).
Proof.
  cbv zeta. split.
  - apply (proj2 (onmessage_effect (Some (lit "AAAAAA==")) 3 liveCall)
             (lit "AAAAAA==")
             {| numberOfFrames := 2; bufferRate := OUTPUT_SAMPLE_RATE;
                channelData := [0 # 32768; 0 # 32768] |}).
    + reflexivity.
    + discriminate.
    + vm_compute. reflexivity.
  - apply (proj1 (onmessage_effect (Some (lit " ")) 3 liveCall)).
    right. right. right. exists (lit " ").
    split; [reflexivity | vm_compute; reflexivity].
Defined.

Lemma onmessage_cursor audioData currentTime st :
  nextStartTimeRef st <=
    nextStartTimeRef (fst (onmessage audioData currentTime st)) /\
  Forall (fun e => nextStartTimeRef st <= fst e)
    (sourceStarts (snd (onmessage audioData currentTime st))).
Proof.
  destruct audioData as [[|c rest]|];
    try (split; [apply Qle_refl | constructor]).
  cbn [onmessage]. unfold whenSet.
  destruct (audioContextRef st) as [ctx|] eqn:Ectx;
    [|split; [apply Qle_refl | constructor]].
  assert (Hctx : audioContextRef st <> None) by congruence.
  rewrite (playAudioChunk_decodeChunk (c :: rest) currentTime st Hctx).
  destruct (decodeChunk (c :: rest)) as [buffer|] eqn:Ed;
    [|split; [apply Qle_refl | constructor]].
  pose proof (proj2 (Math_max_ge currentTime (nextStartTimeRef st))) as Hge.
  pose proof (CodecFacts.decodeChunk_duration_pos (c :: rest) buffer Ed).
  cbn. split; [lra | repeat constructor; exact Hge].
Qed.

Lemma handle_cursor e st :
  isCallClicked e = false ->
  nextStartTimeRef st <= nextStartTimeRef (fst (handle e st)) /\
  Forall (fun s => nextStartTimeRef st <= fst s)
    (sourceStarts (snd (handle e st))).
Proof.
  intros He.
  destruct e as [| c p stream | | c | audioData now | | | frame | |];
    try discriminate He; cbn [handle].
  - split; [apply Qle_refl | constructor].
  - split; [apply Qle_refl | constructor].
  - destruct st as [a m s v [ctx|] src node [stream|] t [session|]];
      cbn; split; try apply Qle_refl; constructor.
  - apply onmessage_cursor.
  - unfold onclose.
    rewrite CallFacts.endCall_state, CallFacts.endCall_calls,
      sourceStarts_teardown.
    split; [apply Qle_refl | constructor].
  - split; [apply Qle_refl | constructor].
  - unfold audioprocess, whenSet.
    destruct (processorRef st) as [node|];
      [|split; [apply Qle_refl | constructor]].
    destruct (seen_isMicOn (onaudioprocess_closure node)) eqn:Ec.
    + rewrite (CallFacts.onaudioprocess_on _ frame st Ec).
      destruct (sessionPromiseRef st); cbn;
        split; try apply Qle_refl; constructor.
    + unfold onaudioprocess. rewrite Ec.
      split; [apply Qle_refl | constructor].
  - rewrite CallFacts.endCall_state, CallFacts.endCall_calls,
      sourceStarts_teardown.
    split; [apply Qle_refl | constructor].
  - split; [apply Qle_refl | constructor].
Qed.

(** X18.  Within a call the playback cursor never moves back: over
    any sequence of events that holds no new click on a call button the
    cursor at the end is at least the cursor at the beginning, and no
    source is started before the cursor the sequence began with. *)
Theorem cursor_never_moves_back (events : list event) :
  forall st,
    forallb (fun e => negb (isCallClicked e)) events = true ->
    nextStartTimeRef st <= nextStartTimeRef (fst (run events st)) /\
    Forall (fun s => nextStartTimeRef st <= fst s)
      (sourceStarts (snd (run events st))).
Proof.
  induction events as [|e events IH]; intros st Hev.
  - split; [apply Qle_refl | constructor].
  - cbn [forallb] in Hev. apply andb_prop in Hev. destruct Hev as [He Hev].
    apply negb_true_iff in He.
    destruct (handle_cursor e st He) as [H1 H2].
    destruct (IH (fst (handle e st)) Hev) as [H3 H4].
    cbn [run]. rewrite seq_fst, seq_snd, sourceStarts_app. split.
    + eapply Qle_trans; eassumption.
    + apply Forall_app. split; [exact H2|].
      eapply Forall_impl; [|exact H4]. cbv beta. intros s Hs.
      eapply Qle_trans; eassumption.
Qed.

Lemma cursor_never_moves_back_witness :
  nextStartTimeRef liveCall <=
  nextStartTimeRef
    (fst (run [SessionMessage (Some (lit "AAAAAA==")) 3; MicClicked;
               SessionMessage (Some (lit "AAAAAA==")) 1; SessionErrored]
            liveCall)).
Proof.
  apply (cursor_never_moves_back
           [SessionMessage (Some (lit "AAAAAA==")) 3; MicClicked;
            SessionMessage (Some (lit "AAAAAA==")) 1; SessionErrored]
           liveCall).
  reflexivity.
Defined.

(** X19.  What a captured frame does, case by case.  With no
    processor node, or with a node whose handler was created with
    [isMicOn] false, nothing changes and nothing is sent.  With a
    handler created with [isMicOn] true the level becomes the root
    mean square of the frame and nothing else changes; nothing is
    sent when [sessionPromiseRef] is empty, and otherwise exactly one
    message goes to that session, with the MIME type
    ["audio/pcm;rate=16000"] and a text that decodes to the
    little-endian 16-bit encoding of the samples, two bytes each. *)
Theorem audioprocess_effect (inputData : list Q) (st : state) :
  (processorRef st = None -> audioprocess inputData st = (st, [])) /\
  (forall node,
      processorRef st = Some node ->
      (seen_isMicOn (onaudioprocess_closure node) = false ->
       audioprocess inputData st = (st, [])) /\
      (seen_isMicOn (onaudioprocess_closure node) = true ->
       fst (audioprocess inputData st) = setVolumeLevel (rms inputData) st /\
       (sessionPromiseRef st = None ->
        snd (audioprocess inputData st) = []) /\
       (forall session,
           sessionPromiseRef st = Some session ->
           exists m bytes,
             snd (audioprocess inputData st) =
               [SendRealtimeInput session m] /\
             mimeType m = lit "audio/pcm;rate=16000" /\
             base64ToUint8Array (data m) = Some bytes /\
             length bytes = (2 * length inputData)%nat /\
             decodePCM bytes = Some (map heard inputData)))).
Proof.
  unfold audioprocess, whenSet. split.
  - now intros ->.
  - intros node ->. split.
    + intros Ec. unfold onaudioprocess. now rewrite Ec.
    + intros Ec. rewrite (CallFacts.onaudioprocess_on _ inputData st Ec).
      cbn [fst snd]. split; [reflexivity|]. split.
      * now intros ->.
      * intros session ->.
        destruct (CallFacts.frameMessage_payload inputData)
          as (Hm & bytes & Hb & Hl & Hd).
        exists (frameMessage inputData), bytes. now repeat split.
Qed.

(** On a live call a frame of two samples is sent as four bytes; on
    the call started with the microphone off it is dropped. *)
Lemma audioprocess_effect_witness :
  audioprocess [1 # 2; -1] mutedCall = (mutedCall, []) /\
  exists m,
    snd (audioprocess [1 # 2; -1] liveCall) =
      [SendRealtimeInput (sessionFor (closure_of initial) priya) m] /\
    base64ToUint8Array (data m) =
      Some [Byte.xff; Byte.x3f; Byte.x00; Byte.x80].
Proof.
  split.
  - apply (proj2 (audioprocess_effect [1 # 2; -1] mutedCall)
             {| bufferSize := 4096;
                onaudioprocess_closure := closure_of afterMutedHangUp |}
             eq_refl).
    reflexivity.
  - destruct (proj2 (audioprocess_effect [1 # 2; -1] liveCall)
                {| bufferSize := 4096;
                   onaudioprocess_closure := closure_of initial |}
                eq_refl) as [_ H].
    destruct (H eq_refl) as (_ & _ & Hs).
    destruct (Hs (sessionFor (closure_of initial) priya) eq_refl)
      as (m & bytes & Hsend & _ & Hb & _ & _).
    exists m. split; [exact Hsend|].
    vm_compute in Hsend. injection Hsend as <-.
    vm_compute. reflexivity.
Defined.

(** *** The level *)

Lemma sumSquares_bounds (inputData : list Q) :
  Forall (fun x => -1 <= x <= 1) inputData ->
  forall acc,
    acc <= fold_left (fun sum x => sum + x * x) inputData acc /\
    fold_left (fun sum x => sum + x * x) inputData acc <=
      acc + inject_Z (Z.of_nat (length inputData)).
Proof.
  induction 1 as [|x l Hx _ IH]; intros acc.
  - cbn. change (inject_Z 0) with 0. split; lra.
  - cbn [fold_left length]. destruct (IH (acc + x * x)) as [H1 H2].
    rewrite Nat2Z.inj_succ, <- Z.add_1_r, inject_Z_plus.
    change (inject_Z 1) with 1.
    assert (0 <= x * x <= 1) by (split; nra).
    split; lra.
Qed.

(** X20.  For a frame that is not empty and whose samples lie in
    [-1, 1], the level shown is the square root of a number between 0
    and 1; for a silent frame it is the square root of 0. *)
Theorem rms_bounded (inputData : list Q) :
  inputData <> [] ->
  Forall (fun x => -1 <= x <= 1) inputData ->
  0 <= squared (rms inputData) <= 1 /\
  (Forall (fun x => x == 0) inputData -> squared (rms inputData) == 0).
Proof.
  intros Hne Hin. unfold rms, squared, sumSquares, frameLength.
  destruct (sumSquares_bounds inputData Hin 0) as [H1 H2].
  assert (Hn : 0 < inject_Z (Z.of_nat (length inputData))).
  { destruct inputData; [congruence|].
    change 0 with (inject_Z 0). rewrite <- Zlt_Qlt. cbn [length]. lia. }
  set (n := inject_Z (Z.of_nat (length inputData))) in *.
  set (sum := fold_left (fun sum x => sum + x * x) inputData 0) in *.
  split.
  - split.
    + apply Qle_shift_div_l; [exact Hn | lra].
    + apply Qle_shift_div_r; [exact Hn | lra].
  - intros Hz.
    assert (Hs : sum == 0).
    { unfold sum. clear -Hz.
      assert (G : forall acc,
                 fold_left (fun sum x => sum + x * x) inputData acc == acc).
      { induction Hz as [|x l Hx _ IH]; intros acc; cbn [fold_left];
          [reflexivity|].
        rewrite IH, Hx. ring. }
      apply G. }
    rewrite Hs. unfold Qdiv. ring.
Qed.

Lemma rms_bounded_witness :
  0 <= squared (rms [1 # 2; -1; 0]) <= 1.
Proof.
  apply (rms_bounded [1 # 2; -1; 0]).
  - discriminate.
  - repeat constructor; vm_compute; discriminate.
Defined.

(** *** Whole calls *)

Lemma run_app es1 es2 st :
  run (es1 ++ es2) st =
    (fst (run es2 (fst (run es1 st))),
     snd (run es1 st) ++ snd (run es2 (fst (run es1 st)))).
Proof.
  revert st. induction es1 as [|e es1 IH]; intros st.
  - cbn [app run skip fst snd]. now destruct (run es2 st).
  - cbn [app run].
    rewrite (surjective_pairing ((handle e ;; run (es1 ++ es2)) st)).
    rewrite !seq_fst, !seq_snd, IH. cbn [fst snd].
    now rewrite app_assoc.
Qed.

(** The first three events of a call that goes well. *)
Lemma call_established c profile stream currentTime m v t :
  run [CallClicked profile true currentTime; MicGranted c profile stream;
       SessionOpened c]
    (mkState None m idle v None None None None t None) =
  (mkState (Some profile) m connected v
     (Some {| sampleRate := OUTPUT_SAMPLE_RATE |})
     (Some {| mediaStream := stream |})
     (Some {| bufferSize := 4096; onaudioprocess_closure := c |})
     (Some stream) currentTime (Some (sessionFor c profile)),
   [NewAudioContext {| sampleRate := OUTPUT_SAMPLE_RATE |};
    GetUserMedia INPUT_SAMPLE_RATE; LiveConnect (sessionFor c profile);
    CreateMediaStreamSource stream; CreateScriptProcessor 4096 1 1;
    ConnectSourceToProcessor; ConnectProcessorToDestination]).
Proof. vm_compute. reflexivity. Qed.

(** X21.  A call that goes well, started from the no-call state and
    ended by the hang-up button, returns to the no-call state: every
    handle acquired on the way is released exactly once, in the order
    the calls are made: the microphone tracks, the processor node, the
    source node and the audio context by the synchronous statements
    of [endCall], the session last, by the callback [endCall] handed
    to the connect promise.  Only the playback cursor keeps a trace of
    the call.  Before the hang-up the call screen reads
    "Live Voice". *)
Theorem whole_call_balanced (c : closure) (profile : FriendProfile)
    (stream : MediaStream) (currentTime : Q) (st : state) :
  noCall st ->
  let ctx := {| sampleRate := OUTPUT_SAMPLE_RATE |} in
  let node := {| bufferSize := 4096; onaudioprocess_closure := c |} in
  let source := {| mediaStream := stream |} in
  run (wholeCall c profile stream currentTime) st =
    (set_nextStartTimeRef currentTime st,
     [NewAudioContext ctx; GetUserMedia INPUT_SAMPLE_RATE;
      LiveConnect (sessionFor c profile);
      CreateMediaStreamSource stream; CreateScriptProcessor 4096 1 1;
      ConnectSourceToProcessor; ConnectProcessorToDestination]
     ++ map TrackStop (getTracks stream)
     ++ [ProcessorDisconnect node; InputSourceDisconnect source;
         AudioContextClose ctx; SessionClose (sessionFor c profile)]) /\
  noCall (fst (run (wholeCall c profile stream currentTime) st)) /\
  render (fst (run (firstn 3 (wholeCall c profile stream currentTime)) st)) =
    CallScreen profile "Live Voice".
Proof.
  destruct st as [a m s v ctx0 src node0 stream0 t session].
  intros (Ha & Hs & H1 & H2 & H3 & H4 & H5).
  cbn [activeCall connectionStatus sessionPromiseRef streamRef processorRef
       inputSourceRef audioContextRef] in *.
  subst. cbn zeta.
  assert (E : run (wholeCall c profile stream currentTime)
                (mkState None m idle v None None None None t None) =
              (set_nextStartTimeRef currentTime
                 (mkState None m idle v None None None None t None),
               [NewAudioContext {| sampleRate := OUTPUT_SAMPLE_RATE |};
                GetUserMedia INPUT_SAMPLE_RATE;
                LiveConnect (sessionFor c profile);
                CreateMediaStreamSource stream; CreateScriptProcessor 4096 1 1;
                ConnectSourceToProcessor; ConnectProcessorToDestination]
               ++ map TrackStop (getTracks stream)
               ++ [ProcessorDisconnect
                     {| bufferSize := 4096; onaudioprocess_closure := c |};
                   InputSourceDisconnect {| mediaStream := stream |};
                   AudioContextClose {| sampleRate := OUTPUT_SAMPLE_RATE |};
                   SessionClose (sessionFor c profile)])).
  { change (wholeCall c profile stream currentTime)
      with ([CallClicked profile true currentTime;
             MicGranted c profile stream; SessionOpened c]
            ++ [HangUpClicked]).
    rewrite run_app, call_established. cbn [fst snd run handle].
    rewrite seq_fst, seq_snd. cbn [skip fst snd].
    rewrite CallFacts.endCall_state, CallFacts.endCall_calls, app_nil_r.
    reflexivity. }
  split; [exact E|]. split.
  - rewrite E. repeat split.
  - change (firstn 3 (wholeCall c profile stream currentTime))
      with [CallClicked profile true currentTime;
            MicGranted c profile stream; SessionOpened c].
    now rewrite call_established.
Qed.

Lemma whole_call_balanced_witness :
  noCall (fst (run (wholeCall (closure_of initial) priya microphone 2)
                 initial)) /\
  skipn 7 (snd (run (wholeCall (closure_of initial) priya microphone 2)
                  initial)) =
    [TrackStop 0;
     ProcessorDisconnect {| bufferSize := 4096;
                            onaudioprocess_closure := closure_of initial |};
     InputSourceDisconnect {| mediaStream := microphone |};
     AudioContextClose {| sampleRate := OUTPUT_SAMPLE_RATE |};
     SessionClose (sessionFor (closure_of initial) priya)].
Proof.
  destruct (whole_call_balanced (closure_of initial) priya microphone 2
              initial) as (E & H & _).
  - repeat split.
  - split; [exact H|]. rewrite E. reflexivity.
Defined.

Lemma teardownCalls_no_capture st :
  forallb (fun c => negb (capturesAudio c)) (teardownCalls st) = true.
Proof.
  unfold teardownCalls. rewrite !forallb_app.
  destruct (sessionPromiseRef st), (processorRef st), (inputSourceRef st),
    (audioContextRef st); cbn;
    rewrite ?andb_true_r;
    (destruct (streamRef st) as [[tracks]|]; [|reflexivity]);
    cbn; induction tracks; cbn; auto.
Qed.

Lemma handle_noStream e st :
  isMicGranted e = false -> noStream st ->
  noStream (fst (handle e st)) /\
  forallb (fun c => negb (capturesAudio c)) (snd (handle e st)) = true.
Proof.
  intros He (Hs & Hp).
  destruct e as [p [|] now | c p stream | | c | audioData now | | | frame | |];
    try discriminate He; cbn [handle].
  - destruct st; cbn in *; subst. repeat split.
  - destruct st; cbn in *; subst. repeat split.
  - destruct st; cbn in *; subst. repeat split.
  - destruct st as [a m s v [ctx|] src node stream t [session|]];
      cbn in *; subst; repeat split.
  - destruct (onmessage_shape audioData now st) as [-> | H].
    + now split.
    + destruct H as (buffer & startTime & ->). now split.
  - unfold onclose. rewrite CallFacts.endCall_state, CallFacts.endCall_calls.
    split; [now split | apply teardownCalls_no_capture].
  - destruct st; cbn in *; subst. repeat split.
  - destruct st; cbn in *; subst. repeat split.
  - rewrite CallFacts.endCall_state, CallFacts.endCall_calls.
    split; [now split | apply teardownCalls_no_capture].
  - destruct st; cbn in *; subst. repeat split.
Qed.

(** X22.  Capture never starts without a microphone stream: as long
    as no microphone grant arrives, whatever else happens (clicks,
    session events, audio callbacks), no stream is held, no processor
    node exists and no source node, processor node, connection or
    outgoing audio message is made. *)
Theorem no_capture_without_microphone (events : list event) :
  forall st,
    forallb (fun e => negb (isMicGranted e)) events = true ->
    noStream st ->
    noStream (fst (run events st)) /\
    forallb (fun c => negb (capturesAudio c)) (snd (run events st)) = true.
Proof.
  induction events as [|e events IH]; intros st Hev Hn.
  - split; [exact Hn | reflexivity].
  - cbn [forallb] in Hev. apply andb_prop in Hev. destruct Hev as [He Hev].
    apply negb_true_iff in He.
    destruct (handle_noStream e st He Hn) as [Hn1 Hlog1].
    destruct (IH _ Hev Hn1) as [Hn2 Hlog2].
    cbn [run]. rewrite seq_fst, seq_snd, forallb_app, Hlog1, Hlog2.
    split; [exact Hn2 | reflexivity].
Qed.

(** The microphone is refused: the call screen reads "Connection
    Failed" and a session that opened all the same starts nothing. *)
Lemma no_capture_without_microphone_witness :
  let events := [CallClicked priya true 0; MicDenied;
                 SessionOpened (closure_of initial);
                 AudioProcess silentFrame] in
  render (fst (run [CallClicked priya true 0; MicDenied] initial)) =
    CallScreen priya "Connection Failed" /\
  forallb (fun c => negb (capturesAudio c)) (snd (run events initial)) = true.
Proof.
  split; [reflexivity|].
  apply (no_capture_without_microphone
           [CallClicked priya true 0; MicDenied;
            SessionOpened (closure_of initial); AudioProcess silentFrame]
           initial).
  - reflexivity.
  - now split.
Defined.

End CallMoreFacts.

(* ----------------------------------------------------------------- *)
(** ** The conversation of the tutor *)

Module ChatFacts.
Import JS JSText Chat.

Lemma other_thrice (r : Role) : other (other (other r)) = other r.
Proof. now destruct r. Qed.

Lemma alternating_two (a b : ChatMessage) :
  forall l r,
    alternating r l -> Nat.odd (length l) = true ->
    role a = other r -> role b = other (other r) ->
    alternating r (l ++ [a; b]).
Proof.
  induction l as [|x|x y l IHl] using CodecFacts.list_ind2;
    intros r Hl Hodd Ha Hb.
  - discriminate.
  - cbn in *. tauto.
  - cbn [alternating app] in *. destruct Hl as (Hx & Hy & Hl).
    repeat split; try assumption.
    apply IHl; try assumption.
    + now rewrite other_thrice.
    + now rewrite other_thrice.
Qed.

(** What one turn does to the transcript: nothing, or the user's text
    and one message of the tutor after it. *)
Lemma exchange_messages (t : turn) (st : state) :
  isLoading st = false ->
  let st1 := fst (exchange t st) in
  isLoading st1 = false /\
  (messages st1 = messages st \/
   exists sent reply,
     messages st1 =
       messages st ++ [{| role := user; text := sent |};
                       {| role := model; text := reply |}]).
Proof.
  intros Hl. unfold exchange.
  set (st0 := match typed t with Some v => setInput v st | None => st end).
  assert (H0 : isLoading st0 = false /\ messages st0 = messages st)
    by (subst st0; destruct (typed t); now split).
  destruct H0 as [Hl0 Hm0]. clearbody st0.
  unfold handleSend. rewrite Hl0, orb_false_r.
  destruct (blank (orElse (transcript t) (input st0))).
  - cbn. split; [assumption | now left].
  - cbn [say chatSession messages input isLoading].
    destruct (chatSession st0).
    + cbn [existsb isSendMessage orb fst].
      destruct (outcome t) as [answer|]; cbn; rewrite <- Hm0, <- app_assoc;
        (split; [reflexivity | right; do 2 eexists; reflexivity]).
    + destruct (creates t).
      * cbn [existsb isSendMessage orb fst].
        destruct (outcome t) as [answer|]; cbn; rewrite <- Hm0, <- app_assoc;
          (split; [reflexivity | right; do 2 eexists; reflexivity]).
      * cbn. rewrite <- Hm0, <- app_assoc.
        split; [reflexivity | right; do 2 eexists; reflexivity].
Qed.

Lemma converse_cons (t : turn) (turns : list turn) (st : state) :
  converse (t :: turns) st =
    (fst (converse turns (fst (exchange t st))),
     snd (exchange t st) ++ snd (converse turns (fst (exchange t st)))).
Proof.
  cbn [converse]. destruct (exchange t st) as [st1 calls1]. cbn [fst snd].
  now destruct (converse turns st1).
Qed.

(** X23.  The transcript of the tutor takes turns: whatever is typed,
    spoken or answered, and whether requests succeed or fail, after
    any number of turns the messages alternate between tutor and
    user, the tutor has the first and the last word, and the loading
    flag is down. *)
Theorem conversation_alternates (turns : list turn) :
  let st := fst (converse turns initial) in
  alternating model (messages st) /\
  Nat.odd (length (messages st)) = true /\
  isLoading st = false.
Proof.
  cbv zeta.
  assert (G : forall st,
             alternating model (messages st) ->
             Nat.odd (length (messages st)) = true ->
             isLoading st = false ->
             alternating model (messages (fst (converse turns st))) /\
             Nat.odd (length (messages (fst (converse turns st)))) = true /\
             isLoading (fst (converse turns st)) = false).
  { induction turns as [|t turns IH]; intros st Ha Ho Hl.
    - cbn. tauto.
    - rewrite converse_cons. cbn [fst].
      destruct (exchange_messages t st Hl) as [Hl1 [Hm | (sent & reply & Hm)]].
      + apply IH; [now rewrite Hm | now rewrite Hm | assumption].
      + apply IH; [| | assumption].
        * rewrite Hm. now apply alternating_two.
        * rewrite Hm, length_app. cbn [length].
          replace (length (messages st) + 2)%nat
            with (S (S (length (messages st)))) by lia.
          now rewrite Nat.odd_succ_succ. }
  apply G; [cbn; tauto | reflexivity | reflexivity].
Qed.

(** What one turn does when the session exists. *)
Lemma exchange_session (t : turn) (st : state) :
  chatSession st = true ->
  isLoading st = false ->
  let st1 := fst (exchange t st) in
  let calls := snd (exchange t st) in
  chatSession st1 = true /\ isLoading st1 = false /\
  ~ In ChatsCreate calls /\
  userTexts (messages st1) = userTexts (messages st) ++ sentTexts calls.
Proof.
  intros Hs Hl. unfold exchange.
  set (st0 := match typed t with Some v => setInput v st | None => st end).
  assert (H0 : isLoading st0 = false /\ messages st0 = messages st /\
               chatSession st0 = true)
    by (subst st0; destruct (typed t); now repeat split).
  destruct H0 as (Hl0 & Hm0 & Hs0). clearbody st0.
  unfold handleSend. rewrite Hl0, orb_false_r.
  destruct (blank (orElse (transcript t) (input st0))).
  - cbn. rewrite app_nil_r, Hm0. now repeat split.
  - cbn [say chatSession messages input isLoading]. rewrite Hs0.
    cbn [existsb isSendMessage orb fst snd].
    assert (Hu : forall l a b,
               userTexts (l ++ [{| role := user; text := a |}]
                            ++ [{| role := model; text := b |}])
               = userTexts l ++ [a]).
    { intros l a b. unfold userTexts. rewrite !flat_map_app. reflexivity. }
    destruct (outcome t) as [answer|];
      cbn [sendSettled failed say messages input isLoading chatSession
           sentTexts flat_map app];
      rewrite <- app_assoc, Hu, Hm0; repeat split; try reflexivity;
      intros [H|[H|[]]]; discriminate.
Qed.

(** X24.  One session serves the whole conversation: once the
    reference holds a chat, no later send creates another one, the
    reference keeps it, and the texts of the user's messages in the
    transcript grow by exactly the texts sent to the model, in
    order. *)
Theorem session_reused (turns : list turn) :
  forall st,
    chatSession st = true ->
    isLoading st = false ->
    let st1 := fst (converse turns st) in
    let calls := snd (converse turns st) in
    chatSession st1 = true /\
    ~ In ChatsCreate calls /\
    userTexts (messages st1) = userTexts (messages st) ++ sentTexts calls.
Proof.
  induction turns as [|t turns IH]; intros st Hs Hl; cbv zeta.
  - cbn. rewrite app_nil_r. now repeat split.
  - rewrite converse_cons. cbn [fst snd].
    destruct (exchange_session t st Hs Hl) as (Hs1 & Hl1 & Hc1 & Hu1).
    destruct (IH _ Hs1 Hl1) as (Hs2 & Hc2 & Hu2).
    repeat split.
    + exact Hs2.
    + intros H. apply in_app_or in H. tauto.
    + rewrite Hu2, Hu1. unfold sentTexts. now rewrite flat_map_app, app_assoc.
Qed.

(** Two turns after the first send made the session: a typed question
    that is answered, then a spoken one whose request fails. *)
Lemma session_reused_witness :
  let opened :=
    fst (exchange {| typed := Some (lit "hello"); transcript := None;
                     creates := true; outcome := Some (Some (lit "Hi!")) |}
           initial) in
  let turns :=
    [{| typed := Some (lit "how are you"); transcript := None;
        creates := true; outcome := Some (Some (lit "Fine.")) |};
     {| typed := None; transcript := Some (lit "bye");
        creates := true; outcome := None |}] in
  chatSession (fst (converse turns opened)) = true /\
  ~ In ChatsCreate (snd (converse turns opened)) /\
  userTexts (messages (fst (converse turns opened))) =
    userTexts (messages opened) ++ sentTexts (snd (converse turns opened)).
Proof.
  cbv zeta.
  apply (session_reused
           [{| typed := Some (lit "how are you"); transcript := None;
               creates := true; outcome := Some (Some (lit "Fine.")) |};
            {| typed := None; transcript := Some (lit "bye");
               creates := true; outcome := None |}]
           (fst (exchange {| typed := Some (lit "hello"); transcript := None;
                             creates := true;
                             outcome := Some (Some (lit "Hi!")) |}
                   initial))).
  - reflexivity.
  - reflexivity.
Defined.

End ChatFacts.

(* ----------------------------------------------------------------- *)
(** ** The voice of the speech output *)

Module SpeechFacts.
Import Speech.

Section Voices.

Variable toLowerCase : string -> string.

Lemma indian_cases (v : voice) :
  indian v = true <-> lang v = "en-IN"%string \/ lang v = "hi-IN"%string.
Proof. unfold indian. rewrite orb_true_iff, !String.eqb_eq. tauto. Qed.

Lemma orFind_assoc (a b c : option voice) :
  orFind a (orFind b c) = orFind (orFind a b) c.
Proof. now destruct a. Qed.

Lemma cardVoice_tutorVoice (voices : list voice) :
  cardVoice toLowerCase voices =
    orFind (tutorVoice toLowerCase voices) (hindiIndian voices).
Proof. unfold cardVoice, tutorVoice. now rewrite !orFind_assoc. Qed.

(** A voice a search returns is installed and Indian. *)
Lemma cardVoice_some (voices : list voice) (v : voice) :
  cardVoice toLowerCase voices = Some v ->
  In v voices /\ indian v = true.
Proof.
  unfold cardVoice, orFind, femaleIndian, googleIndian, englishIndian,
    hindiIndian.
  repeat match goal with
         | |- context [find ?f voices] =>
             let E := fresh "E" in
             destruct (find f voices) eqn:E;
             [apply find_some in E; destruct E as [? E] |]
         end; intros Heq; try discriminate; injection Heq as <-;
    (split; [assumption|]).
  - now apply andb_prop in E.
  - now apply andb_prop in E0.
  - apply String.eqb_eq in E1. apply indian_cases. now left.
  - apply String.eqb_eq in E2. apply indian_cases. now right.
Qed.

Lemma cardVoice_none (voices : list voice) :
  cardVoice toLowerCase voices = None <->
  forall v, In v voices ->
            lang v <> "en-IN"%string /\ lang v <> "hi-IN"%string.
Proof.
  split.
  - unfold cardVoice, orFind.
    destruct (femaleIndian toLowerCase voices); [discriminate|].
    destruct (googleIndian voices); [discriminate|].
    destruct (englishIndian voices) eqn:Ee; [discriminate|].
    destruct (hindiIndian voices) eqn:Eh; [discriminate|].
    intros _ v Hv.
    pose proof (find_none _ _ Ee v Hv) as He.
    pose proof (find_none _ _ Eh v Hv) as Hh.
    cbv beta in He, Hh. apply String.eqb_neq in He, Hh. now split.
  - intros H. destruct (cardVoice toLowerCase voices) as [v|] eqn:E;
      [|reflexivity].
    apply cardVoice_some in E. destruct E as [Hv Hi].
    apply indian_cases in Hi. destruct (H v Hv). tauto.
Qed.

(** X25.  The word card cancels any speech and then speaks the text
    it was given.  When it sets a voice, that voice is an installed
    voice whose language is en-IN or hi-IN, and the utterance takes
    the voice's language.  It sets no voice exactly when no installed
    voice has one of the two languages, and the utterance's language
    is then en-IN. *)
Theorem card_voice (s : string) (voices : list voice) :
  exists u,
    playAudio toLowerCase s voices = [Cancel; Speak u] /\
    text u = s /\
    (forall v, chosen u = Some v ->
               In v voices /\
               (lang v = "en-IN"%string \/ lang v = "hi-IN"%string) /\
               utteranceLang u = lang v) /\
    (chosen u = None -> utteranceLang u = "en-IN"%string) /\
    (chosen u = None <->
     forall v, In v voices ->
               lang v <> "en-IN"%string /\ lang v <> "hi-IN"%string).
Proof.
  unfold playAudio.
  pose proof (cardVoice_some voices) as Hs.
  pose proof (cardVoice_none voices) as Hn.
  destruct (cardVoice toLowerCase voices) as [v|].
  - eexists. split; [reflexivity|]. cbn.
    destruct (Hs v eq_refl) as [Hv Hi]. apply indian_cases in Hi.
    split; [reflexivity|]. split; [|split; [discriminate | split]].
    + intros v0 Heq. injection Heq as <-. now repeat split.
    + discriminate.
    + intros Hall. apply Hn in Hall. discriminate.
  - eexists. split; [reflexivity|]. cbn.
    split; [reflexivity|]. split; [discriminate|].
    split; [reflexivity|]. split.
    + intros _. now apply Hn.
    + reflexivity.
Qed.

(** X26.  The tutor's voice against the card's.  When an en-IN voice
    is installed the tutor speaks with the voice the card would use;
    when no voice is en-IN or hi-IN neither sets one.  When the only
    Indian voices are hi-IN voices with neither "female" nor "Google"
    in the name, the card uses one of them and the tutor sets no
    voice and leaves the language empty. *)
Theorem tutor_voice (s : string) (voices : list voice) :
  exists u,
    speakResponse toLowerCase s voices = [Cancel; Speak u] /\
    text u = s /\ rate u = Some 1 /\
    ((exists v, In v voices /\ lang v = "en-IN"%string) ->
     chosen u = cardVoice toLowerCase voices /\ chosen u <> None) /\
    ((forall v, In v voices ->
                lang v <> "en-IN"%string /\ lang v <> "hi-IN"%string) ->
     chosen u = None /\ cardVoice toLowerCase voices = None) /\
    ((forall v, In v voices -> lang v <> "en-IN"%string) ->
     (forall v, In v voices -> lang v = "hi-IN"%string ->
                includes (toLowerCase (name v)) "female" = false /\
                includes (name v) "Google" = false) ->
     (exists v, In v voices /\ lang v = "hi-IN"%string) ->
     chosen u = None /\ utteranceLang u = ""%string /\
     exists v, cardVoice toLowerCase voices = Some v /\
               lang v = "hi-IN"%string).
Proof.
  assert (Hen : (exists v, In v voices /\ lang v = "en-IN"%string) ->
                tutorVoice toLowerCase voices <> None).
  { intros (v & Hv & Hl). unfold tutorVoice, orFind.
    destruct (femaleIndian toLowerCase voices); [discriminate|].
    destruct (googleIndian voices); [discriminate|].
    destruct (englishIndian voices) eqn:E; [discriminate|].
    pose proof (find_none _ _ E v Hv) as He. cbv beta in He.
    apply String.eqb_neq in He. contradiction. }
  assert (Hnone : tutorVoice toLowerCase voices = None ->
                  cardVoice toLowerCase voices = hindiIndian voices).
  { intros E. now rewrite cardVoice_tutorVoice, E. }
  assert (Hhi : (forall v, In v voices -> lang v <> "en-IN"%string) ->
                (forall v, In v voices -> lang v = "hi-IN"%string ->
                           includes (toLowerCase (name v)) "female" = false /\
                           includes (name v) "Google" = false) ->
                tutorVoice toLowerCase voices = None).
  { intros Hno Hplain.
    assert (Hf : forall v, In v voices -> indian v = true ->
                           includes (toLowerCase (name v)) "female" = false /\
                           includes (name v) "Google" = false).
    { intros v Hv Hi. apply indian_cases in Hi. destruct Hi as [Hi|Hi].
      - now destruct (Hno v Hv).
      - now apply Hplain. }
    unfold tutorVoice, orFind.
    destruct (femaleIndian toLowerCase voices) eqn:E1.
    { apply find_some in E1. destruct E1 as [Hv E1].
      apply andb_prop in E1. destruct E1 as [Hi E1].
      destruct (Hf _ Hv Hi) as [F _]. congruence. }
    destruct (googleIndian voices) eqn:E2.
    { apply find_some in E2. destruct E2 as [Hv E2].
      apply andb_prop in E2. destruct E2 as [Hi E2].
      destruct (Hf _ Hv Hi) as [_ F]. congruence. }
    destruct (englishIndian voices) eqn:E3.
    { apply find_some in E3. destruct E3 as [Hv E3].
      apply String.eqb_eq in E3. now destruct (Hno _ Hv). }
    reflexivity. }
  unfold speakResponse.
  destruct (tutorVoice toLowerCase voices) as [w|] eqn:Et.
  - eexists. split; [reflexivity|]. cbn.
    split; [reflexivity|]. split; [reflexivity|]. split; [|split].
    + intros _. split; [|discriminate].
      now rewrite cardVoice_tutorVoice, Et.
    + intros Hall. exfalso. apply (cardVoice_none voices) in Hall.
      rewrite cardVoice_tutorVoice, Et in Hall. discriminate.
    + intros Hno Hplain _. specialize (Hhi Hno Hplain). discriminate.
  - eexists. split; [reflexivity|]. cbn.
    split; [reflexivity|]. split; [reflexivity|]. split; [|split].
    + intros Hex. exfalso. now apply Hen.
    + intros Hall. split; [reflexivity|]. now apply (cardVoice_none voices).
    + intros _ _ (v & Hv & Hl). split; [reflexivity|].
      split; [reflexivity|].
      rewrite (Hnone eq_refl).
      unfold hindiIndian. destruct (find _ voices) as [h|] eqn:E.
      * exists h. split; [reflexivity|].
        apply find_some in E. destruct E as [_ E].
        now apply String.eqb_eq in E.
      * pose proof (find_none _ _ E v Hv) as F. cbv beta in F.
        apply String.eqb_neq in F. contradiction.
Qed.

End Voices.

(** With only an American voice installed the card sets no voice and
    asks for en-IN. *)
Lemma card_voice_witness :
  exists u,
    playAudio Storage.lowerLatin "hello"
      [{| lang := "en-US"; name := "Samantha" |}] = [Cancel; Speak u] /\
    text u = "hello"%string /\
    chosen u = None /\ utteranceLang u = "en-IN"%string.
Proof.
  destruct (card_voice Storage.lowerLatin "hello"
              [{| lang := "en-US"; name := "Samantha" |}])
    as (u & Hu & Ht & _ & Hfallback & Hnone).
  assert (Hc : chosen u = None).
  { apply Hnone. intros v [<-|[]]. split; discriminate. }
  exists u. split; [exact Hu|]. split; [exact Ht|].
  split; [exact Hc | exact (Hfallback Hc)].
Defined.

(** One Hindi voice with a plain name: the card speaks with it, the
    tutor sets no voice. *)
Lemma tutor_voice_witness :
  let voices := [{| lang := "en-US"; name := "Samantha" |};
                 {| lang := "hi-IN"; name := "Lekha" |}] in
  exists u,
    speakResponse Storage.lowerLatin "hello" voices = [Cancel; Speak u] /\
    chosen u = None /\ utteranceLang u = ""%string /\
    exists v, cardVoice Storage.lowerLatin voices = Some v /\
              lang v = "hi-IN"%string.
Proof.
  cbv zeta.
  destruct (tutor_voice Storage.lowerLatin "hello"
              [{| lang := "en-US"; name := "Samantha" |};
               {| lang := "hi-IN"; name := "Lekha" |}])
    as (u & Hu & _ & _ & _ & _ & H).
  exists u. split; [exact Hu|]. apply H.
  - intros v [<-|[<-|[]]]; discriminate.
  - intros v [<-|[<-|[]]] Hl; [discriminate | now split].
  - eexists. split; [right; left; reflexivity | reflexivity].
Defined.

End SpeechFacts.
